(** * Problem Discovery Service: a shallow embedding of [main.go]

    The service proxies the Codeforces problem-set API: a handler reads the
    tag parameter(s), fetches the problem list from upstream, sorts it by
    rating with [sort.Slice], filters it in the "only" modes, and writes the
    list as JSON.

    Layout of the development:
    - [sort]: the Go standard library's [sort.Slice] (package sort, the
      pattern-defeating quicksort of Go 1.19 and later), over a slice
      held as a list and permuted by swaps;
    - [strings], [http]: the few library operations the program calls;
    - the program itself: [Problem], the four fetch functions, the handlers;
    - the properties of the specification. *)

From stdpp Require Import base decidable list strings gmap sorting pretty.
From Stdlib Require Import ZArith Lia.
From Stdlib Require PrimFloat.

Local Open Scope Z_scope.
Local Open Scope nat_scope.

(** ** Package sort *)

Module sort.

(** The hint [choosePivot_func] gives about the order of the slice. *)
Inductive sortedHint := unknownHint | increasingHint | decreasingHint.

#[global] Instance sortedHint_eq_dec : EqDecision sortedHint.
Proof. solve_decision. Defined.

(** [bits.Len(x)]: the number of bits needed to write [x]; 0 for 0. *)
Definition bits_Len (x : nat) : nat :=
  match x with
  | O => 0
  | _ => S (Nat.log2 x)
  end.

(** [xorshift.Next], on a 64-bit unsigned state: the left shifts wrap. *)
Definition xorshift_Next (r : Z) : Z :=
  let r := Z.lxor r (Z.shiftl r 13 mod 2 ^ 64) in
  let r := Z.lxor r (Z.shiftr r 7) in
  let r := Z.lxor r (Z.shiftl r 17 mod 2 ^ 64) in
  r.

Definition nextPowerOfTwo (length : nat) : nat := 2 ^ bits_Len length.

Section lessSwap.
Context {A : Type}.

(** [data.Less(i, j)]: the closure given to [sort.Slice] reads the slice
    being sorted, so it is a function of the current contents. *)
Variable Less : list A → nat → nat → bool.

(** [data.Swap(i, j)], the swapper of [reflectlite.Swapper]. An index out
    of range panics in Go; the sort never produces one, and the model
    leaves the slice as it is there. *)
Definition Swap (i j : nat) (data : list A) : list A :=
  match data !! i, data !! j with
  | Some x, Some y => <[j := x]> (<[i := y]> data)
  | _, _ => data
  end.

(** [for j := i; j > a && data.Less(j, j-1); j-- { data.Swap(j, j-1) }] *)
Fixpoint insertionSort_inner (data : list A) (a j : nat) : list A :=
  match j with
  | S j' =>
      if (a <? j) && Less data j j'
      then insertionSort_inner (Swap j j' data) a j'
      else data
  | O => data
  end.

Definition insertionSort_func (data : list A) (a b : nat) : list A :=
  foldl (λ d i, insertionSort_inner d a i) data (seq (a + 1) (b - (a + 1))).

(** The [for { ... }] of [siftDown_func]; [root] grows at every turn and
    the loop stops once its child is past [hi], so [hi] turns suffice. *)
Fixpoint siftDown_loop (fuel : nat) (data : list A) (root hi first : nat)
  : list A :=
  match fuel with
  | O => data
  | S fuel =>
      let child := 2 * root + 1 in
      if hi <=? child then data else
      let child :=
        if (child + 1 <? hi) && Less data (first + child) (first + child + 1)
        then child + 1 else child in
      if negb (Less data (first + root) (first + child)) then data else
      siftDown_loop fuel (Swap (first + root) (first + child) data)
                    child hi first
  end.

Definition siftDown_func (data : list A) (lo hi first : nat) : list A :=
  siftDown_loop hi data lo hi first.

Definition heapSort_func (data : list A) (a b : nat) : list A :=
  let first := a in
  let lo := 0 in
  let hi := b - a in
  (* for i := (hi - 1) / 2; i >= 0; i-- *)
  let data :=
    foldl (λ d i, siftDown_func d i hi first) data
          (rev (seq 0 (S ((hi - 1) / 2)))) in
  (* for i := hi - 1; i >= 0; i-- *)
  foldl (λ d i, siftDown_func (Swap first (first + i) d) lo i first) data
        (rev (seq 0 hi)).

Definition breakPatterns_func (data : list A) (a b : nat) : list A :=
  let length := b - a in
  if 8 <=? length then
    let random := Z.of_nat length in
    let modulus := nextPowerOfTwo length in
    let idx := a + (length / 4) * 2 - 1 in
    snd (foldl
           (λ '(random, d) i,
              let random := xorshift_Next random in
              let other :=
                Z.to_nat (Z.land random (Z.of_nat modulus - 1)) in
              let other :=
                if length <=? other then other - length else other in
              (random, Swap (idx - 1 + i) (a + other) d))
           (random, data) [0; 1; 2])
  else data.

(** [order2_func]: the pair comes back ordered, and [swaps] counts. *)
Definition order2_func (data : list A) (a b swaps : nat)
  : nat * nat * nat :=
  if Less data b a then (b, a, S swaps) else (a, b, swaps).

Definition median_func (data : list A) (a b c swaps : nat) : nat * nat :=
  let '(a, b, swaps) := order2_func data a b swaps in
  let '(b, c, swaps) := order2_func data b c swaps in
  let '(a, b, swaps) := order2_func data a b swaps in
  (b, swaps).

Definition medianAdjacent_func (data : list A) (a swaps : nat)
  : nat * nat :=
  median_func data (a - 1) a (a + 1) swaps.

Definition shortestNinther : nat := 50.
Definition maxSwaps : nat := 4 * 3.

Definition choosePivot_func (data : list A) (a b : nat)
  : nat * sortedHint :=
  let l := b - a in
  let swaps := 0 in
  let i := a + l / 4 * 1 in
  let j := a + l / 4 * 2 in
  let k := a + l / 4 * 3 in
  let '(j, swaps) :=
    if 8 <=? l then
      let '(i, j, k, swaps) :=
        if shortestNinther <=? l then
          let '(i, swaps) := medianAdjacent_func data i swaps in
          let '(j, swaps) := medianAdjacent_func data j swaps in
          let '(k, swaps) := medianAdjacent_func data k swaps in
          (i, j, k, swaps)
        else (i, j, k, swaps) in
      median_func data i j k swaps
    else (j, swaps) in
  if swaps =? 0 then (j, increasingHint)
  else if swaps =? maxSwaps then (j, decreasingHint)
  else (j, unknownHint).

(** [for i < j { data.Swap(i, j); i++; j-- }] *)
Fixpoint reverseRange_loop (fuel : nat) (data : list A) (i j : nat)
  : list A :=
  match fuel with
  | O => data
  | S fuel =>
      if i <? j then reverseRange_loop fuel (Swap i j data) (i + 1) (j - 1)
      else data
  end.

Definition reverseRange_func (data : list A) (a b : nat) : list A :=
  reverseRange_loop (b - a) data a (b - 1).

(** [for i < b && !data.Less(i, i-1) { i++ }] *)
Fixpoint skipOrdered (fuel : nat) (data : list A) (i b : nat) : nat :=
  match fuel with
  | O => i
  | S fuel =>
      if (i <? b) && negb (Less data i (i - 1))
      then skipOrdered fuel data (i + 1) b else i
  end.

(** [for j := i - 1; j >= 1; j-- { if !data.Less(j, j-1) { break }; data.Swap(j, j-1) }] *)
Fixpoint shiftLeft (data : list A) (j : nat) : list A :=
  match j with
  | S j' => if negb (Less data j j') then data
            else shiftLeft (Swap j j' data) j'
  | O => data
  end.

(** [for j := i + 1; j < b; j++ { if !data.Less(j, j-1) { break }; data.Swap(j, j-1) }] *)
Fixpoint shiftRight (fuel : nat) (data : list A) (j b : nat) : list A :=
  match fuel with
  | O => data
  | S fuel =>
      if j <? b then
        if negb (Less data j (j - 1)) then data
        else shiftRight fuel (Swap j (j - 1) data) (j + 1) b
      else data
  end.

Definition maxSteps : nat := 5.
Definition shortestShifting : nat := 50.

(** The [for j := 0; j < maxSteps; j++] of [partialInsertionSort_func];
    [i] lives across its turns. *)
Fixpoint partialInsertionSort_loop (steps : nat) (data : list A)
    (a b i : nat) : list A * bool :=
  match steps with
  | O => (data, false)
  | S steps =>
      let i := skipOrdered (b - i) data i b in
      if i =? b then (data, true) else
      if b - a <? shortestShifting then (data, false) else
      let data := Swap i (i - 1) data in
      let data := if 2 <=? i - a then shiftLeft data (i - 1) else data in
      let data :=
        if 2 <=? b - i then shiftRight (b - i) data (i + 1) b else data in
      partialInsertionSort_loop steps data a b i
  end.

Definition partialInsertionSort_func (data : list A) (a b : nat)
  : list A * bool :=
  partialInsertionSort_loop maxSteps data a b (a + 1).

(** The two scans of the partitions: [i] moves right while [stay i],
    [j] moves left while [stay j]; both stop when they cross. Indices are
    Go [int]s: [j] may step to [a], never below. *)
Fixpoint scanUp (fuel : nat) (stay : nat → bool) (i j : nat) : nat :=
  match fuel with
  | O => i
  | S fuel => if (i <=? j) && stay i then scanUp fuel stay (i + 1) j else i
  end.

Fixpoint scanDown (fuel : nat) (stay : nat → bool) (i j : nat) : nat :=
  match fuel with
  | O => j
  | S fuel => if (i <=? j) && stay j then scanDown fuel stay i (j - 1) else j
  end.

(** The [for { ... }] of [partitionEqual_func]; it yields [i]. *)
Fixpoint partitionEqual_loop (fuel : nat) (data : list A) (a i j : nat)
  : list A * nat :=
  match fuel with
  | O => (data, i)
  | S fuel =>
      let i := scanUp (S j - i) (λ i, negb (Less data a i)) i j in
      let j := scanDown (S j - i) (λ j, Less data a j) i j in
      if j <? i then (data, i) else
      partitionEqual_loop fuel (Swap i j data) a (i + 1) (j - 1)
  end.

Definition partitionEqual_func (data : list A) (a b pivot : nat)
  : list A * nat :=
  let data := Swap a pivot data in
  partitionEqual_loop (b - a) data a (a + 1) (b - 1).

(** The second [for { ... }] of [partition_func]; it yields [j]. *)
Fixpoint partition_loop (fuel : nat) (data : list A) (a i j : nat)
  : list A * nat :=
  match fuel with
  | O => (data, j)
  | S fuel =>
      let i := scanUp (S j - i) (λ i, Less data i a) i j in
      let j := scanDown (S j - i) (λ j, negb (Less data j a)) i j in
      if j <? i then (data, j) else
      partition_loop fuel (Swap i j data) a (i + 1) (j - 1)
  end.

Definition partition_func (data : list A) (a b pivot : nat)
  : list A * nat * bool :=
  let data := Swap a pivot data in
  let i := a + 1 in
  let j := b - 1 in
  let i := scanUp (S j - i) (λ i, Less data i a) i j in
  let j := scanDown (S j - i) (λ j, negb (Less data j a)) i j in
  if j <? i then (Swap j a data, j, true) else
  let data := Swap i j data in
  let '(data, j) := partition_loop (b - a) data a (i + 1) (j - 1) in
  (Swap j a data, j, false).

Definition maxInsertion : nat := 12.

(** [pdqsort_func]: one unit of [fuel] per turn of its [for] loop; the
    recursive call on the shorter side starts with fresh flags.
    [length + 1] units always suffice ([Slice_sorted] below). *)
Fixpoint pdqsort_func (fuel : nat) (data : list A) (a b limit : nat)
    (wasBalanced wasPartitioned : bool) : list A :=
  match fuel with
  | O => data
  | S fuel =>
      let length := b - a in
      if length <=? maxInsertion then insertionSort_func data a b else
      if limit =? 0 then heapSort_func data a b else
      let '(data, limit) :=
        if negb wasBalanced
        then (breakPatterns_func data a b, limit - 1)
        else (data, limit) in
      let '(pivot, hint) := choosePivot_func data a b in
      let '(data, pivot, hint) :=
        if decide (hint = decreasingHint)
        then (reverseRange_func data a b, (b - 1) - (pivot - a),
              increasingHint)
        else (data, pivot, hint) in
      let '(data, sorted) :=
        if wasBalanced && wasPartitioned
           && bool_decide (hint = increasingHint)
        then partialInsertionSort_func data a b
        else (data, false) in
      if sorted then data else
      if (0 <? a) && negb (Less data (a - 1) pivot) then
        let '(data, mid) := partitionEqual_func data a b pivot in
        pdqsort_func fuel data mid b limit wasBalanced wasPartitioned
      else
        let '(data, mid, alreadyPartitioned) :=
          partition_func data a b pivot in
        let leftLen := mid - a in
        let rightLen := b - mid in
        let balanceThreshold := length / 8 in
        if leftLen <? rightLen then
          let data := pdqsort_func fuel data a mid limit true true in
          pdqsort_func fuel data (mid + 1) b limit
                       (balanceThreshold <=? leftLen) alreadyPartitioned
        else
          let data := pdqsort_func fuel data (mid + 1) b limit true true in
          pdqsort_func fuel data a mid limit
                       (balanceThreshold <=? rightLen) alreadyPartitioned
  end.

(** [sort.Slice(x, less)] *)
Definition Slice (x : list A) : list A :=
  let length := length x in
  let limit := bits_Len length in
  pdqsort_func (S length) x 0 length limit true true.

End lessSwap.

End sort.

(** ** Errors and results *)

(** A Go [error] is observed through its [Error()] text only. *)
Record error := mkError { Error : string }.

(** The [(value, error)] pair of a Go function that returns [nil] for the
    value when the error is set. *)
Inductive result (A : Type) :=
  | Ok (a : A)
  | Err (err : error).
Arguments Ok {A} a.
Arguments Err {A} err.

(** The line feed that [fmt.Fprintln] and [Encoder.Encode] end with. *)
Definition newline : string := String (Ascii.ascii_of_nat 10) EmptyString.

(** ** Package strings *)

Module strings.

(** [strings.Join(elems, sep)] *)
Definition Join (elems : list string) (sep : string) : string :=
  match elems with
  | [] => ""
  | [e] => e
  | e :: rest => foldl (λ b s, b +:+ sep +:+ s) e rest
  end.

(** The loop of [genSplit]: cut at the first [sep], go on with the rest. *)
Fixpoint genSplit_loop (fuel : nat) (s sep : string) : list string :=
  match fuel with
  | O => [s]
  | S fuel =>
      match String.index 0 sep s with
      | None => [s]
      | Some m =>
          let skip := m + String.length sep in
          String.substring 0 m s
          :: genSplit_loop fuel
               (String.substring skip (String.length s - skip) s) sep
      end
  end.

(** [strings.Split(s, sep)] for a separator that is not empty (the program
    splits on a comma); with an empty separator Go explodes [s] into its
    UTF-8 sequences, which the model gives for ASCII text. *)
Definition Split (s sep : string) : list string :=
  match sep with
  | EmptyString => (λ c, String c EmptyString) <$> String.list_ascii_of_string s
  | _ => genSplit_loop (String.length s) s sep
  end.

End strings.

(** ** The world outside the process *)

(** An upstream answer as the program observes it: the status code, and
    what [io.ReadAll(response.Body)] gives for its body. *)
Record Response := mkResponse {
  StatusCode : Z;
  Body : result string;
}.

(** The world threaded through the program: what [http.Get] answers for a
    URL, the URLs requested so far and the lines handed to [log.Printf]
    (both oldest first; the logger's time stamp is left out). *)
Record World := mkWorld {
  upstream : string → result Response;
  requests : list string;
  logged : list string;
}.

Definition IO (A : Type) : Type := World → A * World.

#[global] Instance IO_ret : MRet IO := λ A a w, (a, w).
#[global] Instance IO_bind : MBind IO :=
  λ A B f m w, let '(a, w) := m w in f a w.

Module http.

Definition StatusOK : Z := 200.
Definition StatusInternalServerError : Z := 500.

(** [http.Get(url)]: the request is recorded, the world answers. A status
    outside 2xx is no error for [http.Get]. *)
Definition Get (url : string) : IO (result Response) :=
  λ w, (upstream w url,
        {| upstream := upstream w;
           requests := requests w ++ [url];
           logged := logged w |}).

(** An [http.ResponseWriter] as a recorder of what the handler sends: the
    status line is fixed by the first [WriteHeader], or by the first
    [Write] (which sends 200) when none came before. Header fields are not
    recorded. *)
Record ResponseWriter := mkResponseWriter {
  wroteHeader : bool;
  status : Z;
  body : string;
}.

Definition newResponseWriter : ResponseWriter :=
  {| wroteHeader := false; status := 0; body := "" |}.

Definition WriteHeader (w : ResponseWriter) (code : Z) : ResponseWriter :=
  if wroteHeader w then w
  else {| wroteHeader := true; status := code; body := body w |}.

Definition Write (w : ResponseWriter) (data : string) : ResponseWriter :=
  let w := if wroteHeader w then w else WriteHeader w StatusOK in
  {| wroteHeader := wroteHeader w; status := status w;
     body := body w +:+ data |}.

(** [http.Error(w, error, code)]: the status, then the text and a newline
    ([fmt.Fprintln]). *)
Definition Error (w : ResponseWriter) (error : string) (code : Z)
  : ResponseWriter :=
  Write (WriteHeader w code) (error +:+ newline).

(** [url.Values] and its [Get]: the first value of the key, or the empty
    string. *)
Definition Values_Get (v : gmap string (list string)) (key : string)
  : string :=
  match v !! key with
  | Some (x :: _) => x
  | _ => ""
  end.

(** What a handler reads of an [*http.Request]: [r.URL.Query()]. *)
Record Request := mkRequest {
  Method : string;
  Path : string;
  Query : gmap string (list string);
}.

End http.

Definition log_Printf (line : string) : IO unit :=
  λ w, (tt,
        {| upstream := upstream w;
           requests := requests w;
           logged := logged w ++ [line] |}).

Definition io_ReadAll (body : result string) : result string := body.

(** ** The program *)

Definition CODEFORCES_BASE_URL : string := "https://codeforces.com/api/".
Definition PROBLEMSET_METHOD : string := "problemset.problems".

(** [float64] fields are carried, never computed with. *)
Definition float64 : Type := PrimFloat.float.

Record Problem := mkProblem {
  ContestID : Z;
  ProblemSetName : string;
  Index : string;
  Name : string;
  Type_ : string;
  Points : float64;
  Rating : Z;
  Tags : list string;
}.

#[global] Instance Problem_inhabited : Inhabited Problem :=
  populate {| ContestID := 0; ProblemSetName := ""; Index := ""; Name := "";
              Type_ := ""; Points := PrimFloat.zero; Rating := 0;
              Tags := [] |}.

Record CodeforcesResult := mkCodeforcesResult {
  Problems : list Problem;
}.

Record CodeforcesResponse := mkCodeforcesResponse {
  Status : string;
  Result : CodeforcesResult;
}.

(** Package encoding/json, at the two types the program uses it at:
    [json.Unmarshal(body, &codeforcesResponse)] and the marshalling inside
    [json.NewEncoder(w).Encode(problems)]. *)
Class Json := {
  json_Unmarshal : string → result CodeforcesResponse;
  json_Marshal : list Problem → result string;
}.

Section program.
Context `{Json}.

(** The closure given to [sort.Slice]: it indexes the slice under sort. *)
Definition lessRating (problems : list Problem) (i j : nat) : bool :=
  (Rating (problems !!! i) <? Rating (problems !!! j))%Z.

Definition fetchCodeforcesProblemSetWithTag (tag : string)
  : IO (result (list Problem)) :=
  let url := CODEFORCES_BASE_URL +:+ PROBLEMSET_METHOD +:+ "?tags=" +:+ tag in
  r ← http.Get url;
  match r with
  | Err err =>
      log_Printf ("Error fetching problem set, err=" +:+ Error err);;
      mret (Err err)
  | Ok response =>
      match io_ReadAll (Body response) with
      | Err err =>
          log_Printf ("Error reading problem set, err=" +:+ Error err);;
          mret (Err err)
      | Ok body =>
          match json_Unmarshal body with
          | Err err =>
              log_Printf
                ("Error unmarshalling problem set, err=" +:+ Error err);;
              mret (Err err)
          | Ok codeforcesResponse =>
              mret (Ok (sort.Slice lessRating
                          (Problems (Result codeforcesResponse))))
          end
      end
  end.

Definition fetchCodeforcesProblemSetWithTagOnly (tag : string)
  : IO (result (list Problem)) :=
  r ← fetchCodeforcesProblemSetWithTag tag;
  match r with
  | Err err =>
      log_Printf ("Error fetching problem set, err=" +:+ Error err);;
      mret (Err err)
  | Ok allProblems =>
      mret (Ok (foldl
                  (λ problems problem,
                     if length (Tags problem) =? 1
                     then problems ++ [problem] else problems)
                  [] allProblems))
  end.

Definition fetchCodeforcesProblemSetWithTags (tags : list string)
  : IO (result (list Problem)) :=
  let url := CODEFORCES_BASE_URL +:+ PROBLEMSET_METHOD +:+ "?tags="
             +:+ strings.Join tags ";" in
  r ← http.Get url;
  match r with
  | Err err =>
      log_Printf ("Error fetching problem set, err=" +:+ Error err);;
      mret (Err err)
  | Ok response =>
      match io_ReadAll (Body response) with
      | Err err =>
          log_Printf ("Error reading problem set, err=" +:+ Error err);;
          mret (Err err)
      | Ok body =>
          match json_Unmarshal body with
          | Err err =>
              log_Printf
                ("Error unmarshalling problem set, err=" +:+ Error err);;
              mret (Err err)
          | Ok codeforcesResponse =>
              mret (Ok (sort.Slice lessRating
                          (Problems (Result codeforcesResponse))))
          end
      end
  end.

Definition fetchCodeforcesProblemSetWithTagsOnly (tags : list string)
  : IO (result (list Problem)) :=
  r ← fetchCodeforcesProblemSetWithTags tags;
  match r with
  | Err err =>
      log_Printf ("Error fetching problem set, err=" +:+ Error err);;
      mret (Err err)
  | Ok allProblems =>
      mret (Ok (foldl
                  (λ problems problem,
                     if length (Tags problem) =? length tags
                     then problems ++ [problem] else problems)
                  [] allProblems))
  end.

(** [json.NewEncoder(w).Encode(problems)]: the value is marshalled, then
    written with a newline; [None] is Go's [nil] error. A [nil] slice and an
    empty one are both the empty list here (Go marshals the first as
    [null], the second as an empty array); writing to the recorder does not
    fail. *)
Definition Encoder_Encode (w : http.ResponseWriter) (problems : list Problem)
  : http.ResponseWriter * option error :=
  match json_Marshal problems with
  | Err err => (w, Some err)
  | Ok text => (http.Write w (text +:+ newline), None)
  end.

Definition problemsByTagHandler (w : http.ResponseWriter) (r : http.Request)
  : IO http.ResponseWriter :=
  let tag := http.Values_Get (http.Query r) "tag" in
  res ← fetchCodeforcesProblemSetWithTag tag;
  match res with
  | Err err =>
      mret (http.Error w (Error err) http.StatusInternalServerError)
  | Ok problems =>
      match Encoder_Encode w problems with
      | (w, Some err) =>
          mret (http.Error w (Error err) http.StatusInternalServerError)
      | (w, None) => mret (http.WriteHeader w http.StatusOK)
      end
  end.

Definition problemsByTagsHandler (w : http.ResponseWriter) (r : http.Request)
  : IO http.ResponseWriter :=
  let tags := http.Values_Get (http.Query r) "tags" in
  res ← fetchCodeforcesProblemSetWithTags (strings.Split tags ",");
  match res with
  | Err err =>
      mret (http.Error w (Error err) http.StatusInternalServerError)
  | Ok problems =>
      match Encoder_Encode w problems with
      | (w, Some err) =>
          mret (http.Error w (Error err) http.StatusInternalServerError)
      | (w, None) => mret (http.WriteHeader w http.StatusOK)
      end
  end.

Definition problemsByTagOnlyHandler (w : http.ResponseWriter) (r : http.Request)
  : IO http.ResponseWriter :=
  let tag := http.Values_Get (http.Query r) "tag" in
  res ← fetchCodeforcesProblemSetWithTagOnly tag;
  match res with
  | Err err =>
      mret (http.Error w (Error err) http.StatusInternalServerError)
  | Ok problems =>
      match Encoder_Encode w problems with
      | (w, Some err) =>
          mret (http.Error w (Error err) http.StatusInternalServerError)
      | (w, None) => mret (http.WriteHeader w http.StatusOK)
      end
  end.

Definition problemsByTagsOnlyHandler (w : http.ResponseWriter) (r : http.Request)
  : IO http.ResponseWriter :=
  let tags := http.Values_Get (http.Query r) "tags" in
  res ← fetchCodeforcesProblemSetWithTagsOnly (strings.Split tags ",");
  match res with
  | Err err =>
      mret (http.Error w (Error err) http.StatusInternalServerError)
  | Ok problems =>
      match Encoder_Encode w problems with
      | (w, Some err) =>
          mret (http.Error w (Error err) http.StatusInternalServerError)
      | (w, None) => mret (http.WriteHeader w http.StatusOK)
      end
  end.

Definition healthHandler (w : http.ResponseWriter) (_ : http.Request)
  : IO http.ResponseWriter :=
  mret (http.Write (http.WriteHeader w http.StatusOK) "ok").

End program.

(** ** Vocabulary for the sort

    The slice is sorted by a key: [data.Less(i, j)] compares the keys of
    the elements at [i] and [j]. *)

Module sort_spec.
Section keyed.
Context {A : Type} (key : A → Z).

(** The key at an index (0 past the end, where nothing is read). *)
Definition K (data : list A) (i : nat) : Z :=
  from_option key 0%Z (data !! i).

(** Where the element at [k] comes from under a swap of [i] and [j]. *)
Definition transp (i j k : nat) : nat :=
  if decide (k = j) then i else if decide (k = i) then j else k.

(** [data'] comes from [data] by swaps of positions inside [a, b). *)
Inductive swaps (a b : nat) : list A → list A → Prop :=
  | swaps_refl data : swaps a b data data
  | swaps_step data data' i j :
      a ≤ i < b → a ≤ j < b → b ≤ length data →
      swaps a b (sort.Swap i j data) data' → swaps a b data data'.

(** The keys of [data[a:b]] ascend. *)
Definition ordered (data : list A) (a b : nat) : Prop :=
  ∀ i j, a ≤ i → i ≤ j → j < b → (K data i ≤ K data j)%Z.

(** What [pdqsort_func] relies on when [a > 0]: the element before the
    range is no greater than any element in it. *)
Definition guarded (data : list A) (a b : nat) : Prop :=
  0 < a → ∀ k, a ≤ k < b → (K data (a - 1) ≤ K data k)%Z.

(** [data[first : first+hi]] read as a binary tree: from node [lo] on,
    no child is greater than its parent. *)
Definition heap_from (data : list A) (first lo hi : nat) : Prop :=
  ∀ p c, lo ≤ p → p < c → c < hi → (c = 2 * p + 1 ∨ c = 2 * p + 2) →
    (K data (first + c) ≤ K data (first + p))%Z.

End keyed.
End sort_spec.

(** ** Vocabulary of the specification *)

(** The URL of the upstream problem-listing call for a [tags] value. *)
Definition problemsetURL (tags : string) : string :=
  CODEFORCES_BASE_URL +:+ PROBLEMSET_METHOD +:+ "?tags=" +:+ tags.

(** Sorted by rating ascending: [∀ i < j, result[i].rating ≤ result[j].rating]. *)
Definition sorted_by_rating (ps : list Problem) : Prop :=
  ∀ i j p q, i < j → ps !! i = Some p → ps !! j = Some q →
    (Rating p ≤ Rating q)%Z.

(** The world answers [url] with a body that decodes to [c]. *)
Definition answers `{Json} (w : World) (url : string) (c : CodeforcesResponse)
  : Prop :=
  ∃ response body,
    upstream w url = Ok response ∧ Body response = Ok body
    ∧ json_Unmarshal body = Ok c.

(** The problem carries exactly [k] tags. *)
Definition has_tag_count (k : nat) (p : Problem) : Prop :=
  length (Tags p) = k.

#[global] Instance has_tag_count_dec k p : Decision (has_tag_count k p).
Proof. unfold has_tag_count. apply _. Defined.

(** The problems of rating [r], in the order of the list. *)
Definition rated (r : Z) (ps : list Problem) : list Problem :=
  filter (λ p, Rating p = r) ps.

(** Stable ties: problems of equal rating stand in [sorted] in the order
    they have in [upstream]. *)
Definition ties_in_upstream_order (upstream sorted : list Problem) : Prop :=
  ∀ r, rated r sorted = rated r upstream.


(** The parameter is absent from the query, or its first value is empty. *)
Definition empty_or_absent (q : gmap string (list string)) (key : string)
  : Prop :=
  q !! key = None ∨ q !! key = Some [] ∨ ∃ vs, q !! key = Some ("" :: vs).

(** ** Sample upstream documents *)

Module sample.

Definition quoted (s : string) : string :=
  let q := String (Ascii.ascii_of_nat 34) EmptyString in q +:+ s +:+ q.

Definition field (name value : string) : string :=
  quoted name +:+ ":" +:+ value.

Definition array (items : list string) : string :=
  "[" +:+ String.concat "," items +:+ "]".

Definition object (fields : list string) : string :=
  "{" +:+ String.concat "," fields +:+ "}".

(** A problem of contest 1 without points, as the listings of the
    scenarios have them. *)
Definition problem (index name : string) (rating : Z) (tags : list string)
  : Problem :=
  {| ContestID := 1; ProblemSetName := ""; Index := index; Name := name;
     Type_ := "PROGRAMMING"; Points := PrimFloat.zero; Rating := rating;
     Tags := tags |}.

(** The JSON text of a problem as upstream sends it (no points, no set name). *)
Definition problem_text (p : Problem) : string :=
  object [field "contestId" (pretty (ContestID p));
          field "index" (quoted (Index p));
          field "name" (quoted (Name p));
          field "type" (quoted (Type_ p));
          field "rating" (pretty (Rating p));
          field "tags" (array (quoted <$> Tags p))].

Definition document (c : CodeforcesResponse) : string :=
  object [field "status" (quoted (Status c));
          field "result"
            (object [field "problems"
                       (array (problem_text <$> Problems (Result c)))])].

(** The scenario of the specification: ratings 1200, 900, 1600 and
    tag counts 1, 2, 1. *)
Definition catalog : list Problem :=
  [problem "A" "Knapsack" 1200 ["dp"];
   problem "B" "Paths" 900 ["dp"; "graphs"];
   problem "C" "Coins" 1600 ["dp"]].

(** Twelve problems of rating 1200 in a row, then one of rating 800. *)
Definition thirteen : list Problem :=
  ((λ index, problem index "Ladder" 1200 ["dp"])
     <$> ["A"; "B"; "C"; "D"; "E"; "F"; "G"; "H"; "I"; "J"; "K"; "L"])
  ++ [problem "M" "Warmup" 800 ["dp"]].

Definition listing (status : string) (ps : list Problem)
  : CodeforcesResponse :=
  {| Status := status; Result := {| Problems := ps |} |}.

(** What upstream answers to a request it rejects: status FAILED and no
    result, which [json.Unmarshal] decodes without error, to no problems. *)
Definition failed_text : string :=
  object [field "status" (quoted "FAILED");
          field "comment" (quoted "tags: incorrect value")].

(** The documents the sample decoder knows, with what [json.Unmarshal]
    makes of each. *)
Definition documents : list (string * CodeforcesResponse) :=
  [(document (listing "OK" catalog), listing "OK" catalog);
   (document (listing "FAILED" catalog), listing "FAILED" catalog);
   (document (listing "OK" thirteen), listing "OK" thirteen);
   (failed_text, listing "FAILED" [])].

(** [json.Marshal] of a problem list, for problems without points: the
    fields in the order of the struct. *)
Definition marshal_problem (p : Problem) : string :=
  object [field "contestId" (pretty (ContestID p));
          field "problemsetName" (quoted (ProblemSetName p));
          field "index" (quoted (Index p));
          field "name" (quoted (Name p));
          field "type" (quoted (Type_ p));
          field "points" "0";
          field "rating" (pretty (Rating p));
          field "tags" (array (quoted <$> Tags p))].

(** encoding/json on the sample documents; any other body is malformed. *)
Definition json : Json := {|
  json_Unmarshal body :=
    match list_find (λ d, d.1 = body) documents with
    | Some (_, (_, c)) => Ok c
    | None => Err (mkError "invalid character 'o' looking for beginning of value")
    end;
  json_Marshal ps := Ok (array (marshal_problem <$> ps));
|}.

(** A world in which upstream answers every request with [code] and [body]. *)
Definition serving (code : Z) (body : string) : World :=
  {| upstream := λ _, Ok {| StatusCode := code; Body := Ok body |};
     requests := []; logged := [] |}.

(** A world in which upstream cannot be reached. *)
Definition unreachable : World :=
  {| upstream := λ _, Err (mkError "dial tcp: connect: connection refused");
     requests := []; logged := [] |}.

Definition request (path : string) (query : list (string * list string))
  : http.Request :=
  {| http.Method := "GET"; http.Path := path;
     http.Query := list_to_map query |}.

End sample.

(** The world after one more request to [url]. *)
Definition visited (url : string) (w : World) : World :=
  {| upstream := upstream w;
     requests := requests w ++ [url];
     logged := logged w |}.

(** The response a handler leaves behind: status line and body. *)
Definition sent (code : Z) (text : string) : http.ResponseWriter :=
  {| http.wroteHeader := true; http.status := code; http.body := text |}.

(** ** The server around the handlers *)

Module time.

(** The clock of the process: the instants (in nanoseconds) it shows at
    its successive readings, and how many readings were taken. *)
Record Clock := mkClock {
  readings : nat → Z;
  reads : nat;
}.

(** [time.Now()] *)
Definition Now (c : Clock) : Z * Clock :=
  (readings c (reads c), {| readings := readings c; reads := S (reads c) |}).

Definition minDuration : Z := - 2 ^ 63.
Definition maxDuration : Z := 2 ^ 63 - 1.

(** [t.Sub(u)]: the difference, kept inside the range of a [Duration]. *)
Definition Sub (t u : Z) : Z :=
  let d := (t - u)%Z in
  if (maxDuration <? d)%Z then maxDuration
  else if (d <? minDuration)%Z then minDuration
  else d.

(** [time.Since(t)] is [time.Now().Sub(t)]. *)
Definition Since (t : Z) (c : Clock) : Z * Clock :=
  let '(now, c) := Now c in (Sub now t, c).

End time.

(** [Duration.String()], the text that [%s] prints for a duration. *)
Class Duration := {
  Duration_String : Z → string;
}.

(** An [http.Handler], through its [ServeHTTP]. *)
Definition Handler : Type :=
  http.ResponseWriter → http.Request → IO http.ResponseWriter.

(** [log.Println(line)]: one line of the log, as for [log.Printf]. *)
Definition log_Println (line : string) : IO unit := log_Printf line.

(** [loggingMiddleware(next)]: the handler it returns. The clock is passed
    along with the response. *)
Definition loggingMiddleware `{Duration} (next : Handler)
    (w : http.ResponseWriter) (r : http.Request) (c : time.Clock)
  : IO (http.ResponseWriter * time.Clock) :=
  let '(start, c) := time.Now c in
  w ← next w r;
  let '(elapsed, c) := time.Since start c in
  log_Printf (http.Method r +:+ " " +:+ http.Path r +:+ " "
              +:+ Duration_String elapsed);;
  mret (w, c).

(** What [shutdownGracefully] uses of an [*http.Server]: its [Shutdown],
    called with the context of ten seconds; [None] is Go's [nil] error. *)
Record Server := mkServer {
  Shutdown : IO (option error);
}.

(** [shutdownGracefully(server)], from the arrival of the signal that
    [<-stop] waits for. *)
Definition shutdownGracefully (server : Server) : IO unit :=
  log_Println "shutting down server...";;
  err ← Shutdown server;
  match err with
  | Some err => log_Printf ("graceful shutdown failed, err=" +:+ Error err)
  | None => mret tt
  end;;
  log_Println "server shutdown gracefully".

(** ** More vocabulary *)

Module sort_ties.

(** The elements of key [r], in the order of the slice. *)
Definition keyed {A : Type} (key : A → Z) (r : Z) (data : list A) : list A :=
  filter (λ x, key x = r) data.

End sort_ties.

(** The text [s] with every character [old] replaced by [new]. *)
Fixpoint replace_char (old new : Ascii.ascii) (s : string) : string :=
  match s with
  | EmptyString => EmptyString
  | String c s =>
      String (if Ascii.eqb c old then new else c) (replace_char old new s)
  end.

(** How often the character [c] stands in [s]. *)
Fixpoint count_char (c : Ascii.ascii) (s : string) : nat :=
  match s with
  | EmptyString => 0
  | String b s => (if Ascii.eqb b c then 1 else 0) + count_char c s
  end.

Definition comma : Ascii.ascii := Ascii.ascii_of_nat 44.
Definition semicolon : Ascii.ascii := Ascii.ascii_of_nat 59.



Module sample_server.

(** An upstream list that is in the order of its ratings, with a tie. *)
Definition by_rating : list Problem :=
  [sample.problem "B" "Paths" 900 ["dp"; "graphs"];
   sample.problem "D" "Stairs" 1200 ["dp"];
   sample.problem "A" "Knapsack" 1200 ["dp"];
   sample.problem "C" "Coins" 1600 ["dp"]].

(** encoding/json on the sample documents and on that list. *)
Definition json : Json := {|
  json_Unmarshal body :=
    if decide (body = sample.document (sample.listing "OK" by_rating))
    then Ok (sample.listing "OK" by_rating)
    else @json_Unmarshal sample.json body;
  json_Marshal := @json_Marshal sample.json;
|}.

End sample_server.

(** ** [sort.Slice] sorts

    Every procedure of the sort permutes the slice by swaps inside the
    range it is given; the range comes out ordered. *)

Module sort_facts.
Import sort sort_spec.

Section keyed.
Context {A : Type} (key : A → Z).
Variable Less : list A → nat → nat → bool.
Hypothesis Less_key : ∀ data i j x y,
  data !! i = Some x → data !! j = Some y →
  Less data i j = (key x <? key y)%Z.

Lemma Less_K data i j :
  i < length data → j < length data →
  Less data i j = (K key data i <? K key data j)%Z.
Proof.
  intros [x Hx]%lookup_lt_is_Some [y Hy]%lookup_lt_is_Some.
  unfold K. rewrite Hx, Hy. simpl. by apply Less_key.
Qed.

Lemma Swap_length i j (data : list A) : length (Swap i j data) = length data.
Proof.
  unfold Swap. destruct (data !! i), (data !! j); [|done..].
  by rewrite !length_insert.
Qed.

Lemma Swap_lookup i j k (data : list A) :
  i < length data → j < length data →
  Swap i j data !! k = data !! transp i j k.
Proof.
  intros Hi Hj. unfold Swap, transp.
  destruct (lookup_lt_is_Some_2 data i Hi) as [x Hx].
  destruct (lookup_lt_is_Some_2 data j Hj) as [y Hy].
  rewrite Hx, Hy.
  destruct (decide (k = j)) as [->|Hkj].
  - rewrite list_lookup_insert_eq by (by rewrite length_insert). done.
  - rewrite list_lookup_insert_ne by done.
    destruct (decide (k = i)) as [->|Hki].
    + rewrite list_lookup_insert_eq by done. done.
    + by rewrite list_lookup_insert_ne.
Qed.

Lemma K_Swap i j k (data : list A) :
  i < length data → j < length data →
  K key (Swap i j data) k = K key data (transp i j k).
Proof. intros Hi Hj. unfold K. by rewrite Swap_lookup. Qed.

Lemma Swap_out_of_range i j (data : list A) :
  ¬ (i < length data ∧ j < length data) → Swap i j data = data.
Proof.
  intros Hij. unfold Swap.
  destruct (data !! i) as [x|] eqn:Hx; [|done].
  destruct (data !! j) as [y|] eqn:Hy; [|done].
  apply lookup_lt_Some in Hx, Hy. lia.
Qed.

Lemma transp_inj i j : Inj (=) (=) (transp i j).
Proof. intros k1 k2. unfold transp. repeat case_decide; congruence. Qed.

Lemma Swap_Permutation i j (data : list A) : Swap i j data ≡ₚ data.
Proof.
  destruct (decide (i < length data ∧ j < length data)) as [[Hi Hj]|Hij].
  - apply Permutation_inj. split; [apply Swap_length|].
    exists (transp i j). split; [apply transp_inj|].
    intros k. by apply Swap_lookup.
  - by rewrite Swap_out_of_range.
Qed.


(** *** Swaps inside a range *)

Lemma transp_range a b i j k :
  a ≤ i < b → a ≤ j < b → (a ≤ transp i j k < b ↔ a ≤ k < b).
Proof. unfold transp. repeat case_decide; lia. Qed.

Lemma swaps_length a b (data data' : list A) :
  swaps a b data data' → length data' = length data.
Proof. induction 1 as [|d d' i j Hi Hj Hl Hs IH]; [done|]. by rewrite IH, Swap_length. Qed.

Lemma swaps_trans a b (d1 d2 d3 : list A) :
  swaps a b d1 d2 → swaps a b d2 d3 → swaps a b d1 d3.
Proof.
  induction 1 as [|d d' i j Hi Hj Hl Hs IH]; [done|].
  intros H23. eapply swaps_step; [exact Hi|exact Hj|exact Hl|]. by apply IH.
Qed.

Lemma swaps_one a b i j (data : list A) :
  a ≤ i < b → a ≤ j < b → b ≤ length data →
  swaps a b data (Swap i j data).
Proof. intros Hi Hj Hl. eapply swaps_step; [exact Hi|exact Hj|exact Hl|]. constructor. Qed.

Lemma swaps_weaken a b a' b' (data data' : list A) :
  a' ≤ a → b ≤ b' → b' ≤ length data →
  swaps a b data data' → swaps a' b' data data'.
Proof.
  intros Ha Hb Hlen Hs. induction Hs as [|d d' i j Hi Hj Hl Hs IH].
  - constructor.
  - eapply swaps_step with (i := i) (j := j); [lia..|].
    apply IH. by rewrite Swap_length.
Qed.

Lemma swaps_lookup_outside a b k (data data' : list A) :
  swaps a b data data' → ¬ (a ≤ k < b) → data' !! k = data !! k.
Proof.
  induction 1 as [|d d' i j Hi Hj Hl Hs IH]; [done|]. intros Hk.
  rewrite IH by done. rewrite Swap_lookup by lia.
  unfold transp. repeat case_decide; subst; done || lia.
Qed.

Lemma swaps_K_outside a b k (data data' : list A) :
  swaps a b data data' → ¬ (a ≤ k < b) → K key data' k = K key data k.
Proof. intros. unfold K. by erewrite swaps_lookup_outside. Qed.

Lemma swaps_Permutation a b (data data' : list A) :
  swaps a b data data' → data' ≡ₚ data.
Proof. induction 1 as [|d d' i j Hi Hj Hl Hs IH]; [done|]. by rewrite IH, Swap_Permutation. Qed.

(** What holds of every key in the range still does after the swaps. *)
Lemma swaps_all (P : Z → Prop) a b (data data' : list A) :
  swaps a b data data' →
  (∀ k, a ≤ k < b → P (K key data k)) →
  ∀ k, a ≤ k < b → P (K key data' k).
Proof.
  induction 1 as [|d d' i j Hi Hj Hl Hs IH]; [done|]. intros HP.
  apply IH. intros k Hk. rewrite K_Swap by lia.
  apply HP. by apply transp_range.
Qed.

Lemma swaps_guarded a b a' b' (data data' : list A) :
  swaps a' b' data data' → a ≤ a' → b' ≤ b →
  guarded key data a b → guarded key data' a b.
Proof.
  intros Hs Ha Hb Hg Hpos k Hk.
  rewrite (swaps_K_outside a' b' (a - 1) data data') by (done || lia).
  destruct (decide (a' ≤ k < b')) as [Hin|Hout].
  - clear Hk. revert k Hin.
    apply (swaps_all (λ z, K key data (a - 1) ≤ z)%Z a' b' data data' Hs).
    intros k Hk. apply Hg; lia.
  - rewrite (swaps_K_outside a' b' k data data') by done. by apply Hg.
Qed.

(** Instantiate an [ordered]-like fact at two indices, when its side
    conditions follow by arithmetic. *)
Ltac discharge Hu :=
  lazymatch type of Hu with
  | ?P → _ =>
      let HP := fresh in
      assert P as HP by lia; specialize (Hu HP); clear HP; discharge Hu
  | _ => idtac
  end.

Ltac use2 H x y :=
  try (let Hu := fresh "Hu" in pose proof (H x y) as Hu; discharge Hu).

Ltac use1 H x :=
  try (let Hu := fresh "Hu" in pose proof (H x) as Hu; discharge Hu).

Ltac swap_keys :=
  rewrite ?K_Swap by lia; unfold transp; repeat case_decide; subst.

(** *** Insertion sort *)

Lemma insertionSort_inner_spec (data : list A) a j i :
  a ≤ j → j ≤ i → i < length data →
  ordered key data a j → ordered key data j (S i) →
  (∀ p q, a ≤ p < j → j < q ≤ i → (K key data p ≤ K key data q)%Z) →
  swaps a (S i) data (insertionSort_inner Less data a j)
  ∧ ordered key (insertionSort_inner Less data a j) a (S i).
Proof.
  revert data. induction j as [|j IH]; intros data Ha Hj Hi Hlo Hhi Hsplit.
  - simpl. split; [constructor|]. by replace a with 0 by lia.
  - simpl. destruct (Nat.ltb_spec a (S j)) as [Haj|Haj]; simpl.
    + rewrite Less_K by lia.
      destruct (Z.ltb_spec (K key data (S j)) (K key data j)) as [Hlt|Hge].
      * destruct (IH (Swap (S j) j data)) as [Hs Ho];
          [lia|lia|by rewrite Swap_length|..].
        -- intros p q ???. swap_keys; try lia. by apply Hlo; lia.
        -- intros p q ???. swap_keys; try lia.
           ++ use2 Hhi (S j) q. lia.
           ++ use2 Hsplit j q. use2 Hhi (S j) q. lia.
           ++ by apply Hhi; lia.
        -- intros p q ??. swap_keys; try lia.
           ++ by apply Hlo; lia.
           ++ by apply Hsplit; lia.
        -- split; [|done].
           eapply swaps_step with (i := S j) (j := j); [lia..|done].
      * split; [constructor|]. intros p q ???.
        destruct (decide (q ≤ j)); [by apply Hlo; lia|].
        destruct (decide (S j ≤ p)); [by apply Hhi; lia|].
        use2 Hlo p j. use2 Hhi (S j) q. lia.
    + split; [constructor|]. intros p q ???. apply Hhi; lia.
Qed.


Lemma ordered_short (data : list A) a b : b ≤ S a → ordered key data a b.
Proof. intros Hb i j ???. replace j with i by lia. done. Qed.

Lemma insertionSort_turns (data : list A) a i n :
  a < i → i + n ≤ length data → ordered key data a i →
  swaps a (i + n) data
    (foldl (λ d i, insertionSort_inner Less d a i) data (seq i n))
  ∧ ordered key
      (foldl (λ d i, insertionSort_inner Less d a i) data (seq i n))
      a (i + n).
Proof.
  revert data i. induction n as [|n IH]; intros data i Ha Hlen Hord; simpl.
  - rewrite Nat.add_0_r. split; [constructor|done].
  - destruct (insertionSort_inner_spec data a i i) as [Hs Ho];
      [lia|lia|lia|done|by apply ordered_short|intros; lia|].
    destruct (IH (insertionSort_inner Less data a i) (S i)) as [Hs' Ho'];
      [lia|by rewrite (swaps_length _ _ _ _ Hs); lia|done|].
    replace (i + S n) with (S i + n) by lia. split; [|done].
    eapply swaps_trans; [|exact Hs'].
    eapply swaps_weaken; [| | |exact Hs]; lia.
Qed.

Lemma insertionSort_func_spec (data : list A) a b :
  b ≤ length data →
  swaps a b data (insertionSort_func Less data a b)
  ∧ ordered key (insertionSort_func Less data a b) a b.
Proof.
  intros Hb. unfold insertionSort_func.
  destruct (decide (b ≤ S a)) as [Hshort|Hlong].
  - replace (b - (a + 1)) with 0 by lia. simpl.
    split; [constructor|by apply ordered_short].
  - destruct (insertionSort_turns data a (a + 1) (b - (a + 1))) as [Hs Ho];
      [lia|lia|apply ordered_short; lia|].
    by replace (a + 1 + (b - (a + 1))) with b in * by lia.
Qed.


(** *** The two scans *)

Lemma scanUp_spec fuel (stay : nat → bool) i j :
  i ≤ S j → S j - i ≤ fuel →
  i ≤ scanUp fuel stay i j ≤ S j
  ∧ (∀ k, i ≤ k < scanUp fuel stay i j → stay k = true)
  ∧ (scanUp fuel stay i j ≤ j → stay (scanUp fuel stay i j) = false).
Proof.
  revert i. induction fuel as [|fuel IH]; intros i Hi Hfuel; simpl.
  - repeat split; [lia..|intros; lia|intros; lia].
  - destruct (Nat.leb_spec i j) as [Hij|Hij]; simpl.
    + destruct (stay i) eqn:Hstay.
      * destruct (IH (i + 1)) as (Hr & Hall & Hstop); [lia..|].
        repeat split; [lia..| |done].
        intros k Hk. destruct (decide (k = i)) as [->|]; [done|].
        apply Hall. lia.
      * repeat split; [lia..|intros; lia|done].
    + repeat split; [lia..|intros; lia|intros; lia].
Qed.

Lemma scanDown_spec fuel (stay : nat → bool) i j :
  1 ≤ i → i ≤ S j → S j - i ≤ fuel →
  i ≤ S (scanDown fuel stay i j) ∧ scanDown fuel stay i j ≤ j
  ∧ (∀ k, scanDown fuel stay i j < k ≤ j → stay k = true)
  ∧ (i ≤ scanDown fuel stay i j → stay (scanDown fuel stay i j) = false).
Proof.
  revert j. induction fuel as [|fuel IH]; intros j H1 Hi Hfuel; simpl.
  - repeat split; [lia..|intros; lia|intros; lia].
  - destruct (Nat.leb_spec i j) as [Hij|Hij]; simpl.
    + destruct (stay j) eqn:Hstay.
      * destruct (IH (j - 1)) as (Hlo & Hhi & Hall & Hstop); [lia..|].
        repeat split; [lia..| |done].
        intros k Hk. destruct (decide (k = j)) as [->|]; [done|].
        apply Hall. lia.
      * repeat split; [lia..|intros; lia|done].
    + repeat split; [lia..|intros; lia|intros; lia].
Qed.

(** *** Partition around a pivot *)

Lemma partition_loop_spec fuel (data : list A) a i j b :
  a < i → i ≤ S j → j < b → b ≤ length data → S j - i ≤ fuel →
  (∀ k, a < k < i → (K key data k < K key data a)%Z) →
  (∀ k, j < k < b → (K key data a ≤ K key data k)%Z) →
  ∃ data' mid,
    partition_loop Less fuel data a i j = (data', mid)
    ∧ swaps (S a) b data data'
    ∧ a ≤ mid < b
    ∧ (∀ k, a < k ≤ mid → (K key data' k < K key data' a)%Z)
    ∧ (∀ k, mid < k < b → (K key data' a ≤ K key data' k)%Z).
Proof.
  revert data i j.
  induction fuel as [|fuel IH]; intros data i j Hai Hij Hjb Hlen Hfuel HL HR.
  - exists data, j. simpl. repeat split; [constructor|lia..| |done].
    intros k Hk. apply HL. lia.
  - cbn [partition_loop].
    set (stayL := λ i, Less data i a).
    set (stayR := λ j, negb (Less data j a)).
    destruct (scanUp_spec (S j - i) stayL i j) as (Hi1 & HallL & HstopL);
      [lia..|].
    set (i1 := scanUp (S j - i) stayL i j) in *.
    destruct (scanDown_spec (S j - i1) stayR i1 j)
      as (Hj1 & Hj1' & HallR & HstopR); [lia..|].
    set (j1 := scanDown (S j - i1) stayR i1 j) in *.
    clearbody j1. clearbody i1. unfold stayL, stayR in *. clear stayL stayR.
    assert (HL1 : ∀ k, a < k < i1 → (K key data k < K key data a)%Z).
    { intros k Hk. destruct (decide (k < i)); [apply HL; lia|].
      specialize (HallL k ltac:(lia)).
      rewrite Less_K in HallL by lia. by apply Z.ltb_lt. }
    assert (HR1 : ∀ k, j1 < k < b → (K key data a ≤ K key data k)%Z).
    { intros k Hk. destruct (decide (j < k)); [apply HR; lia|].
      specialize (HallR k ltac:(lia)).
      rewrite Less_K in HallR by lia.
      apply negb_true_iff, Z.ltb_ge in HallR. done. }
    destruct (Nat.ltb_spec j1 i1) as [Hcross|Hmeet].
    + exists data, j1. repeat split; [constructor|lia..| |done].
      intros k Hk. apply HL1. lia.
    + specialize (HstopL ltac:(lia)). specialize (HstopR ltac:(lia)).
      rewrite Less_K in HstopL, HstopR by lia.
      apply Z.ltb_ge in HstopL. apply negb_false_iff, Z.ltb_lt in HstopR.
      assert (i1 < j1) by (destruct (decide (i1 = j1)) as [Heq|];
                           [rewrite Heq in HstopL; lia|lia]).
      destruct (IH (Swap i1 j1 data) (i1 + 1) (j1 - 1))
        as (data' & mid & Heq & Hs & Hmid & HL' & HR');
        [lia|lia|lia|by rewrite Swap_length|lia|..].
      * intros k Hk. swap_keys; try lia. apply HL1. lia.
      * intros k Hk. swap_keys; try lia. apply HR1. lia.
      * exists data', mid. split; [done|]. split; [|done].
        eapply swaps_step with (i := i1) (j := j1); [lia..|done].
Qed.

Lemma partition_func_loop (data : list A) a b pivot :
  (partition_func Less data a b pivot).1
  = (let '(data', mid) :=
       partition_loop Less (S (b - a)) (Swap a pivot data) a (a + 1) (b - 1)
     in (Swap mid a data', mid)).
Proof.
  unfold partition_func. cbn [partition_loop].
  destruct (_ <? _); [done|].
  by destruct (partition_loop _ _ _ _ _ _).
Qed.

Lemma partition_func_spec (data : list A) a b pivot :
  a ≤ pivot < b → b ≤ length data →
  ∃ data' mid flag,
    partition_func Less data a b pivot = (data', mid, flag)
    ∧ swaps a b data data'
    ∧ a ≤ mid < b
    ∧ (∀ k, a ≤ k < mid → (K key data' k ≤ K key data' mid)%Z)
    ∧ (∀ k, mid < k < b → (K key data' mid ≤ K key data' k)%Z).
Proof.
  intros Hp Hb.
  pose proof (partition_func_loop data a b pivot) as Hfun.
  destruct (partition_loop_spec (S (b - a)) (Swap a pivot data)
              a (a + 1) (b - 1) b)
    as (data1 & mid & Heq & Hs & Hmid & HL & HR);
    [lia|lia|lia|by rewrite Swap_length|lia|intros; lia|intros; lia|].
  rewrite Heq in Hfun.
  destruct (partition_func Less data a b pivot) as [[data' mid'] flag].
  simpl in Hfun. injection Hfun as -> ->.
  pose proof (swaps_length _ _ _ _ Hs) as Hlen1.
  rewrite Swap_length in Hlen1.
  exists (Swap mid a data1), mid, flag. repeat split; [|lia..| |].
  - eapply swaps_step with (i := a) (j := pivot); [lia..|].
    eapply swaps_trans.
    + eapply swaps_weaken; [| | |exact Hs]; [lia|lia|by rewrite Swap_length].
    + apply swaps_one; lia.
  - intros k Hk. swap_keys; try lia.
    + use1 HL mid. lia.
    + use1 HL k. lia.
  - intros k Hk. swap_keys; try lia; by apply HR.
Qed.


Lemma partitionEqual_loop_spec fuel (data : list A) a i j b :
  a < i → i ≤ S j → j < b → b ≤ length data → S j - i ≤ fuel →
  (∀ k, a < k < i → (K key data k ≤ K key data a)%Z) →
  ∃ data' mid,
    partitionEqual_loop Less fuel data a i j = (data', mid)
    ∧ swaps (S a) b data data'
    ∧ a < mid ≤ b
    ∧ (∀ k, a < k < mid → (K key data' k ≤ K key data' a)%Z).
Proof.
  revert data i j.
  induction fuel as [|fuel IH]; intros data i j Hai Hij Hjb Hlen Hfuel HL.
  - exists data, i. simpl. repeat split; [constructor|lia..|done].
  - cbn [partitionEqual_loop].
    set (stayL := λ i, negb (Less data a i)).
    set (stayR := λ j, Less data a j).
    destruct (scanUp_spec (S j - i) stayL i j) as (Hi1 & HallL & HstopL);
      [lia..|].
    set (i1 := scanUp (S j - i) stayL i j) in *.
    destruct (scanDown_spec (S j - i1) stayR i1 j)
      as (Hj1 & Hj1' & HallR & HstopR); [lia..|].
    set (j1 := scanDown (S j - i1) stayR i1 j) in *.
    clearbody j1. clearbody i1. unfold stayL, stayR in *. clear stayL stayR.
    assert (HL1 : ∀ k, a < k < i1 → (K key data k ≤ K key data a)%Z).
    { intros k Hk. destruct (decide (k < i)); [apply HL; lia|].
      specialize (HallL k ltac:(lia)).
      rewrite Less_K in HallL by lia.
      by apply negb_true_iff, Z.ltb_ge in HallL. }
    destruct (Nat.ltb_spec j1 i1) as [Hcross|Hmeet].
    + exists data, i1. repeat split; [constructor|lia..|done].
    + specialize (HstopL ltac:(lia)). specialize (HstopR ltac:(lia)).
      rewrite Less_K in HstopL, HstopR by lia.
      apply negb_false_iff, Z.ltb_lt in HstopL. apply Z.ltb_ge in HstopR.
      assert (i1 < j1) by (destruct (decide (i1 = j1)) as [Heq|];
                           [rewrite Heq in HstopL; lia|lia]).
      destruct (IH (Swap i1 j1 data) (i1 + 1) (j1 - 1))
        as (data' & mid & Heq & Hs & Hmid & HL');
        [lia|lia|lia|by rewrite Swap_length|lia|..].
      * intros k Hk. swap_keys; try lia. apply HL1. lia.
      * exists data', mid. split; [done|]. split; [|split; [lia|done]].
        eapply swaps_step with (i := i1) (j := j1); [lia..|done].
Qed.

Lemma partitionEqual_func_spec (data : list A) a b pivot :
  a ≤ pivot < b → b ≤ length data →
  (∀ k, a ≤ k < b → (K key data pivot ≤ K key data k)%Z) →
  ∃ data' mid,
    partitionEqual_func Less data a b pivot = (data', mid)
    ∧ swaps a b data data'
    ∧ a < mid ≤ b
    ∧ (∀ k, a ≤ k < b → (K key data pivot ≤ K key data' k)%Z)
    ∧ (∀ k, a ≤ k < mid → (K key data' k ≤ K key data pivot)%Z).
Proof.
  intros Hp Hb Hmin. unfold partitionEqual_func.
  destruct (partitionEqual_loop_spec (b - a) (Swap a pivot data)
              a (a + 1) (b - 1) b)
    as (data' & mid & Heq & Hs & Hmid & HL);
    [lia|lia|lia|by rewrite Swap_length|lia|intros; lia|].
  exists data', mid. split; [done|].
  assert (Hs' : swaps a b data data').
  { eapply swaps_step with (i := a) (j := pivot); [lia..|].
    eapply swaps_weaken; [| | |exact Hs]; [lia|lia|by rewrite Swap_length]. }
  assert (Ha : K key data' a = K key data pivot).
  { rewrite (swaps_K_outside (S a) b a _ _ Hs) by lia. by swap_keys. }
  repeat split; [done|lia..| |].
  - apply (swaps_all (λ z, K key data pivot ≤ z)%Z a b data data' Hs' Hmin).
  - intros k Hk. destruct (decide (k = a)) as [->|]; [lia|].
    rewrite <- Ha. apply HL. lia.
Qed.


(** *** Choosing the pivot, reversing, breaking patterns *)

Lemma median_func_in (data : list A) x y z swaps :
  let r := (median_func Less data x y z swaps).1 in r = x ∨ r = y ∨ r = z.
Proof.
  unfold median_func, order2_func.
  repeat (destruct (Less _ _ _); simpl); auto.
Qed.

Lemma choosePivot_func_range (data : list A) a b :
  a < b → a ≤ (choosePivot_func Less data a b).1 < b.
Proof.
  intros Hab. unfold choosePivot_func.
  assert (Hq : 4 * ((b - a) / 4) ≤ b - a)
    by (apply Nat.Div0.mul_div_le).
  destruct (Nat.leb_spec 8 (b - a)) as [H8|H8].
  - assert (2 ≤ (b - a) / 4) by (apply Nat.div_le_lower_bound; lia).
    destruct (Nat.leb_spec shortestNinther (b - a)) as [H50|H50].
    + unfold medianAdjacent_func.
      pose proof (median_func_in data (a + (b - a) / 4 * 1 - 1)
                    (a + (b - a) / 4 * 1) (a + (b - a) / 4 * 1 + 1) 0) as Hi.
      destruct (median_func Less data (a + (b - a) / 4 * 1 - 1) _ _ 0)
        as [i s1].
      pose proof (median_func_in data (a + (b - a) / 4 * 2 - 1)
                    (a + (b - a) / 4 * 2) (a + (b - a) / 4 * 2 + 1) s1) as Hj.
      destruct (median_func Less data (a + (b - a) / 4 * 2 - 1) _ _ s1)
        as [j s2].
      pose proof (median_func_in data (a + (b - a) / 4 * 3 - 1)
                    (a + (b - a) / 4 * 3) (a + (b - a) / 4 * 3 + 1) s2) as Hk.
      destruct (median_func Less data (a + (b - a) / 4 * 3 - 1) _ _ s2)
        as [k s3].
      pose proof (median_func_in data i j k s3) as Hm.
      destruct (median_func Less data i j k s3) as [m s4].
      simpl in *. repeat (destruct (_ =? _)); simpl; lia.
    + pose proof (median_func_in data (a + (b - a) / 4 * 1)
                    (a + (b - a) / 4 * 2) (a + (b - a) / 4 * 3) 0) as Hm.
      destruct (median_func Less data _ _ _ 0) as [m s4].
      simpl in *. repeat (destruct (_ =? _)); simpl; lia.
  - cbn [Nat.eqb fst]. lia.
Qed.

Lemma reverseRange_loop_swaps fuel (data : list A) a b i j :
  a ≤ i → j < b → b ≤ length data →
  swaps a b data (reverseRange_loop fuel data i j).
Proof.
  revert data i j. induction fuel as [|fuel IH]; intros data i j Hi Hj Hb.
  - constructor.
  - simpl. destruct (Nat.ltb_spec i j); [|constructor].
    eapply swaps_step with (i := i) (j := j); [lia..|].
    apply IH; [lia|lia|by rewrite Swap_length].
Qed.

Lemma reverseRange_func_swaps (data : list A) a b :
  a < b → b ≤ length data → swaps a b data (reverseRange_func data a b).
Proof. intros. apply reverseRange_loop_swaps; lia. Qed.

Lemma nextPowerOfTwo_bound length :
  0 < length → length < nextPowerOfTwo length ≤ 2 * length.
Proof.
  intros Hpos. unfold nextPowerOfTwo, bits_Len.
  destruct length as [|n]; [lia|].
  pose proof (Nat.log2_spec (S n) ltac:(lia)) as [Hlo Hhi].
  rewrite Nat.pow_succ_r' in *. lia.
Qed.

(** The index [breakPatterns_func] draws lies in the range. *)
Lemma breakPatterns_other length (random : Z) :
  0 < length →
  let other :=
    Z.to_nat (Z.land random (Z.of_nat (nextPowerOfTwo length) - 1)) in
  (if length <=? other then other - length else other) < length.
Proof.
  intros Hpos other.
  pose proof (nextPowerOfTwo_bound length Hpos) as [Hlo Hhi].
  assert (Hother : other < nextPowerOfTwo length).
  { unfold other, nextPowerOfTwo in *.
    rewrite Nat2Z.inj_pow. change (Z.of_nat 2) with 2%Z.
    rewrite Z.sub_1_r, <- Z.ones_equiv, Z.land_ones by lia.
    pose proof (Z.mod_pos_bound random (2 ^ Z.of_nat (bits_Len length)))
      as Hmod.
    assert (0 < 2 ^ Z.of_nat (bits_Len length))%Z
      by (apply Z.pow_pos_nonneg; lia).
    specialize (Hmod ltac:(lia)).
    apply Nat2Z.inj_lt. rewrite Z2Nat.id by lia.
    rewrite Nat2Z.inj_pow. change (Z.of_nat 2) with 2%Z. lia. }
  destruct (Nat.leb_spec length other); lia.
Qed.

Lemma breakPatterns_func_swaps (data : list A) a b :
  a ≤ b → b ≤ length data → swaps a b data (breakPatterns_func data a b).
Proof.
  intros Hab Hb. unfold breakPatterns_func.
  destruct (Nat.leb_spec 8 (b - a)) as [H8|H8]; [|constructor].
  assert (Hq : 4 * ((b - a) / 4) ≤ b - a)
    by (apply Nat.Div0.mul_div_le).
  assert (2 ≤ (b - a) / 4) by (apply Nat.div_le_lower_bound; lia).
  cbn [foldl snd].
  set (r1 := xorshift_Next (Z.of_nat (b - a))).
  set (r2 := xorshift_Next r1). set (r3 := xorshift_Next r2).
  pose proof (breakPatterns_other (b - a) r1 ltac:(lia)) as H1.
  pose proof (breakPatterns_other (b - a) r2 ltac:(lia)) as H2.
  pose proof (breakPatterns_other (b - a) r3 ltac:(lia)) as H3.
  cbv zeta in H1, H2, H3.
  eapply swaps_step; [| | |eapply swaps_step; [| | |apply swaps_one]];
    rewrite ?Swap_length; lia.
Qed.


(** *** Partial insertion sort *)

Lemma ordered_outside a b lo hi (data data' : list A) :
  swaps lo hi data data' → hi ≤ a ∨ b ≤ lo →
  ordered key data a b → ordered key data' a b.
Proof.
  intros Hs Hout Hord i j ???.
  rewrite !(swaps_K_outside lo hi _ data data') by (done || lia).
  by apply Hord.
Qed.

Lemma ordered_snoc (data : list A) a i :
  a < i → ordered key data a i →
  (K key data (i - 1) ≤ K key data i)%Z → ordered key data a (i + 1).
Proof.
  intros Hi Hord Hle p q ???.
  destruct (decide (q < i)); [by apply Hord|].
  destruct (decide (p = q)) as [->|]; [done|].
  replace q with i by lia. use2 Hord p (i - 1). lia.
Qed.

Lemma skipOrdered_spec fuel (data : list A) a i b :
  a < i → i ≤ b → b ≤ length data → b - i ≤ fuel →
  ordered key data a i →
  i ≤ skipOrdered Less fuel data i b ≤ b
  ∧ ordered key data a (skipOrdered Less fuel data i b)
  ∧ (skipOrdered Less fuel data i b < b →
     (K key data (skipOrdered Less fuel data i b)
      < K key data (skipOrdered Less fuel data i b - 1))%Z).
Proof.
  revert i. induction fuel as [|fuel IH]; intros i Ha Hi Hb Hfuel Hord.
  - simpl. repeat split; [lia..|done|lia].
  - simpl. destruct (Nat.ltb_spec i b) as [Hib|Hib]; simpl.
    + rewrite Less_K by lia.
      destruct (Z.ltb_spec (K key data i) (K key data (i - 1))); simpl.
      * repeat split; [lia..|done|done].
      * destruct (IH (i + 1)) as (Hr & Ho & Hstop);
          [lia..|by apply ordered_snoc|].
        repeat split; [lia..|done|done].
    + repeat split; [lia..|done|lia].
Qed.

(** Guarded from below, [shiftLeft] stops at [a] as the inner loop of the
    insertion sort does. *)
Lemma shiftLeft_guarded (data : list A) a j b :
  a ≤ j → j < b → b ≤ length data → guarded key data a b →
  shiftLeft Less data j = insertionSort_inner Less data a j.
Proof.
  revert data. induction j as [|j IH]; intros data Ha Hj Hb Hg; [done|].
  simpl. rewrite Less_K by lia.
  destruct (Nat.ltb_spec a (S j)) as [Haj|Haj]; simpl.
  - destruct (Z.ltb_spec (K key data (S j)) (K key data j)); simpl; [|done].
    apply IH; [lia|lia|by rewrite Swap_length|].
    eapply swaps_guarded; [apply (swaps_one a b (S j) j); lia|lia|lia|done].
  - assert (a = S j) as -> by lia.
    specialize (Hg ltac:(lia) (S j) ltac:(lia)).
    replace (S j - 1) with j in Hg by lia.
    destruct (Z.ltb_spec (K key data (S j)) (K key data j)); simpl; [lia|done].
Qed.

Lemma shiftRight_swaps fuel (data : list A) lo j b :
  lo < j → b ≤ length data → swaps lo b data (shiftRight Less fuel data j b).
Proof.
  revert data j. induction fuel as [|fuel IH]; intros data j Hj Hb.
  - constructor.
  - simpl. destruct (Nat.ltb_spec j b); [|constructor].
    destruct (negb _); [constructor|].
    eapply swaps_step with (i := j) (j := j - 1); [lia..|].
    apply IH; [lia|by rewrite Swap_length].
Qed.

Lemma partialInsertionSort_loop_spec steps (data : list A) a b i :
  a < i → i ≤ b → b ≤ length data →
  ordered key data a i → guarded key data a b →
  swaps a b data (partialInsertionSort_loop Less steps data a b i).1
  ∧ ((partialInsertionSort_loop Less steps data a b i).2 = true →
     ordered key (partialInsertionSort_loop Less steps data a b i).1 a b).
Proof.
  revert data i.
  induction steps as [|steps IH]; intros data i Ha Hi Hb Hord Hg.
  - simpl. split; [constructor|done].
  - cbn [partialInsertionSort_loop].
    destruct (skipOrdered_spec (b - i) data a i b) as (Hr & Ho & Hstop);
      [lia..|done|].
    set (i1 := skipOrdered Less (b - i) data i b) in *. clearbody i1.
    destruct (Nat.eqb_spec i1 b) as [->|Hne]; [split; [constructor|done]|].
    destruct (_ <? shortestShifting); [split; [constructor|done]|].
    specialize (Hstop ltac:(lia)).
    set (d1 := Swap i1 (i1 - 1) data).
    assert (Hs1 : swaps a b data d1) by (apply swaps_one; lia).
    assert (Hl1 : length d1 = length data) by apply Swap_length.
    set (d2 := if 2 <=? i1 - a then shiftLeft Less d1 (i1 - 1) else d1).
    assert (Hs2 : swaps a i1 d1 d2 ∧ ordered key d2 a i1).
    { assert (Hord1 : ordered key d1 a (i1 - 1)).
      { intros p q ???. unfold d1. swap_keys; try lia. apply Ho; lia. }
      unfold d2. destruct (Nat.leb_spec 2 (i1 - a)).
      - rewrite (shiftLeft_guarded d1 a (i1 - 1) b);
          [|lia|lia|lia|by eapply swaps_guarded; [exact Hs1|..]].
        pose proof (insertionSort_inner_spec d1 a (i1 - 1) (i1 - 1)) as Hins.
        replace (S (i1 - 1)) with i1 in Hins by lia.
        apply Hins;
          [lia|lia|lia|done|apply ordered_short; lia|intros; lia].
      - split; [constructor|]. apply ordered_short. lia. }
    destruct Hs2 as [Hs2 Hord2].
    assert (Hl2 : length d2 = length data)
      by (by rewrite (swaps_length _ _ _ _ Hs2)).
    set (d3 := if 2 <=? b - i1
               then shiftRight Less (b - i1) d2 (i1 + 1) b else d2).
    assert (Hs3 : swaps i1 b d2 d3).
    { unfold d3. destruct (2 <=? b - i1); [|constructor].
      apply shiftRight_swaps; lia. }
    assert (Hs : swaps a b data d3).
    { eapply swaps_trans; [exact Hs1|]. eapply swaps_trans.
      - eapply swaps_weaken; [| | |exact Hs2]; lia.
      - eapply swaps_weaken; [| | |exact Hs3]; lia. }
    destruct (IH d3 i1) as [Hs' Ho'];
      [lia|lia|by rewrite (swaps_length _ _ _ _ Hs)| |
       by eapply swaps_guarded; [exact Hs|..]|].
    + eapply ordered_outside; [exact Hs3|lia|done].
    + split; [|done]. eapply swaps_trans; [exact Hs|done].
Qed.

Lemma partialInsertionSort_func_spec (data : list A) a b :
  a < b → b ≤ length data → guarded key data a b →
  swaps a b data (partialInsertionSort_func Less data a b).1
  ∧ ((partialInsertionSort_func Less data a b).2 = true →
     ordered key (partialInsertionSort_func Less data a b).1 a b).
Proof.
  intros Hab Hb Hg. apply partialInsertionSort_loop_spec;
    [lia|lia|done|apply ordered_short; lia|done].
Qed.


(** *** Heap sort *)

Lemma siftDown_loop_spec fuel (data : list A) root hi first lo :
  lo ≤ root → first + hi ≤ length data → hi - root ≤ fuel →
  (∀ p c, lo ≤ p → p ≠ root → p < c → c < hi →
     (c = 2 * p + 1 ∨ c = 2 * p + 2) →
     (K key data (first + c) ≤ K key data (first + p))%Z) →
  (∀ pp c, lo ≤ pp → (root = 2 * pp + 1 ∨ root = 2 * pp + 2) →
     root < c → c < hi → (c = 2 * root + 1 ∨ c = 2 * root + 2) →
     (K key data (first + c) ≤ K key data (first + pp))%Z) →
  swaps (first + lo) (first + hi) data
    (siftDown_loop Less fuel data root hi first)
  ∧ heap_from key (siftDown_loop Less fuel data root hi first) first lo hi.
Proof.
  revert data root.
  induction fuel as [|fuel IH]; intros data root Hlo Hlen Hfuel Hheap Hup.
  - simpl. split; [constructor|].
    intros p c ????. apply Hheap; lia.
  - cbn [siftDown_loop].
    destruct (Nat.leb_spec hi (2 * root + 1)) as [Hleaf|Hchild].
    { split; [constructor|]. intros p c ????. apply Hheap; lia. }
    set (child := if (2 * root + 1 + 1 <? hi)
                     && Less data (first + (2 * root + 1))
                          (first + (2 * root + 1) + 1)
                  then 2 * root + 1 + 1 else 2 * root + 1).
    assert (Hchild' :
      (child = 2 * root + 1 ∨ child = 2 * root + 2) ∧ child < hi
      ∧ ∀ c, (c = 2 * root + 1 ∨ c = 2 * root + 2) → c < hi →
          (K key data (first + c) ≤ K key data (first + child))%Z).
    { unfold child.
      replace (2 * root + 1 + 1) with (2 * root + 2) by lia.
      replace (first + (2 * root + 1) + 1) with (first + (2 * root + 2))
        by lia.
      destruct (Nat.ltb_spec (2 * root + 2) hi) as [Htwo|Hone]; cbn [andb].
      - rewrite Less_K by lia.
        destruct (Z.ltb_spec (K key data (first + (2 * root + 1)))
                    (K key data (first + (2 * root + 2)))) as [Hlt|Hge].
        + repeat split; [lia..|]. intros c [->| ->] ?; [lia|done].
        + repeat split; [lia..|]. intros c [->| ->] ?; [done|lia].
      - repeat split; [lia..|]. intros c [->| ->] ?; [done|lia]. }
    clearbody child. destruct Hchild' as (Hc & Hchi & Hmax).
    rewrite Less_K by lia.
    destruct (Z.ltb_spec (K key data (first + root))
                (K key data (first + child))) as [Hlt|Hge]; cbn [negb].
    + destruct (IH (Swap (first + root) (first + child) data) child)
        as [Hs Hh]; [lia|by rewrite Swap_length|lia|..].
      * intros p c ?????. swap_keys; try lia;
          use1 Hmax c; use2 Hup p child; use2 Hheap p c; lia.
      * intros pp c ?????. swap_keys; try lia;
          use2 Hheap child c; lia.
      * split; [|done].
        eapply swaps_step
          with (i := first + root) (j := first + child); [lia..|done].
    + split; [constructor|]. intros p c ????.
      destruct (decide (p = root)) as [->|]; [|apply Hheap; lia].
      use1 Hmax c. lia.
Qed.

Lemma siftDown_func_spec (data : list A) lo hi first :
  first + hi ≤ length data → heap_from key data first (S lo) hi →
  swaps (first + lo) (first + hi) data (siftDown_func Less data lo hi first)
  ∧ heap_from key (siftDown_func Less data lo hi first) first lo hi.
Proof.
  intros Hlen Hheap. apply siftDown_loop_spec; [lia|done|lia|..].
  - intros p c ?????. apply Hheap; lia.
  - intros; lia.
Qed.

(** The root of a heap holds its greatest key. *)
Lemma heap_root_max (data : list A) first n p :
  heap_from key data first 0 n → p < n →
  (K key data (first + p) ≤ K key data (first + 0))%Z.
Proof.
  intros Hheap. induction (lt_wf p) as [p _ IH]. intros Hp.
  destruct p as [|p]; [done|].
  assert (Hq : 2 * (p / 2) ≤ p ∧ p < 2 * (p / 2) + 2).
  { pose proof (Nat.div_mod_eq p 2). pose proof (Nat.mod_upper_bound p 2).
    lia. }
  specialize (IH (p / 2) ltac:(lia) ltac:(lia)).
  use2 Hheap (p / 2) (S p). lia.
Qed.

Lemma heapSort_build (data : list A) first hi n :
  first + hi ≤ length data → heap_from key data first n hi →
  swaps first (first + hi) data
    (foldl (λ d i, siftDown_func Less d i hi first) data (rev (seq 0 n)))
  ∧ heap_from key
      (foldl (λ d i, siftDown_func Less d i hi first) data (rev (seq 0 n)))
      first 0 hi.
Proof.
  revert data. induction n as [|n IH]; intros data Hlen Hheap.
  - simpl. split; [constructor|done].
  - rewrite seq_S, rev_app_distr. simpl.
    destruct (siftDown_func_spec data n hi first) as [Hs Hh]; [done..|].
    destruct (IH (siftDown_func Less data n hi first)) as [Hs' Hh'];
      [by rewrite (swaps_length _ _ _ _ Hs)|done|].
    split; [|done]. eapply swaps_trans; [|exact Hs'].
    eapply swaps_weaken; [| | |exact Hs]; lia.
Qed.

Lemma heapSort_pop (data : list A) first hi n :
  n ≤ hi → first + hi ≤ length data →
  heap_from key data first 0 n →
  ordered key data (first + n) (first + hi) →
  (∀ p q, p < n → n ≤ q < hi →
     (K key data (first + p) ≤ K key data (first + q))%Z) →
  swaps first (first + hi) data
    (foldl (λ d i, siftDown_func Less (Swap first (first + i) d) 0 i first)
       data (rev (seq 0 n)))
  ∧ ordered key
      (foldl (λ d i, siftDown_func Less (Swap first (first + i) d) 0 i first)
         data (rev (seq 0 n)))
      first (first + hi).
Proof.
  revert data. induction n as [|n IH]; intros data Hn Hlen Hheap Hord Hsplit.
  - simpl. split; [constructor|]. by rewrite Nat.add_0_r in Hord.
  - rewrite seq_S, rev_app_distr. simpl.
    set (d1 := Swap first (first + n) data).
    assert (Hs1 : swaps first (first + hi) data d1)
      by (apply swaps_one; lia).
    assert (Hl1 : length d1 = length data) by apply Swap_length.
    assert (Hmax : ∀ p, p < S n →
              (K key data (first + p) ≤ K key data (first + 0))%Z)
      by (intros p Hp; by eapply heap_root_max).
    rewrite Nat.add_0_r in Hmax.
    destruct (siftDown_func_spec d1 0 n first) as [Hs2 Hh2]; [lia|..].
    { intros p c ????. unfold d1. swap_keys; try lia.
      apply Hheap; lia. }
    rewrite Nat.add_0_r in Hs2.
    set (d2 := siftDown_func Less d1 0 n first) in *.
    assert (Hl2 : length d2 = length data)
      by (by rewrite (swaps_length _ _ _ _ Hs2)).
    assert (Hbelow : ∀ k, first ≤ k < first + n →
              (K key d2 k ≤ K key data first)%Z).
    { apply (swaps_all (λ z, z ≤ K key data first)%Z _ _ _ _ Hs2).
      intros k Hk. unfold d1. swap_keys; try lia.
      - use1 Hmax n. lia.
      - use1 Hmax (k - first). by replace (first + (k - first)) with k in *
          by lia. }
    assert (Hrest : ∀ k, first + n ≤ k → K key d2 k = K key d1 k)
      by (intros k Hk; apply (swaps_K_outside _ _ _ _ _ Hs2); lia).
    destruct (IH d2) as [Hs' Ho']; [lia|lia|done|..].
    + intros i j ???. rewrite !Hrest by lia. unfold d1.
      swap_keys; try lia.
      * use2 Hsplit 0 (j - first). rewrite Nat.add_0_r in *.
        by replace (first + (j - first)) with j in * by lia.
      * apply Hord; lia.
    + intros p q ??. rewrite (Hrest (first + q)) by lia.
      use1 Hbelow (first + p). unfold d1. swap_keys; try lia.
      use2 Hsplit 0 q. rewrite Nat.add_0_r in *. lia.
    + split; [|done]. eapply swaps_trans; [exact Hs1|].
      eapply swaps_trans; [|exact Hs'].
      eapply swaps_weaken; [| | |exact Hs2]; lia.
Qed.

Lemma heapSort_func_spec (data : list A) a b :
  a ≤ b → b ≤ length data →
  swaps a b data (heapSort_func Less data a b)
  ∧ ordered key (heapSort_func Less data a b) a b.
Proof.
  intros Hab Hb. unfold heapSort_func.
  destruct (heapSort_build data a (b - a) (S ((b - a - 1) / 2)))
    as [Hs Hh]; [lia|..].
  { intros p c ????.
    pose proof (Nat.div_mod_eq (b - a - 1) 2).
    pose proof (Nat.mod_upper_bound (b - a - 1) 2). lia. }
  set (d1 := foldl _ data _) in *.
  destruct (heapSort_pop d1 a (b - a) (b - a)) as [Hs' Ho];
    [lia|by rewrite (swaps_length _ _ _ _ Hs); lia|done|
     apply ordered_short; lia|intros; lia|].
  replace (a + (b - a)) with b in * by lia.
  split; [|done]. eapply swaps_trans; [exact Hs|exact Hs'].
Qed.


(** *** The quicksort loop *)

Lemma guarded_shrink (data : list A) a b b' :
  b' ≤ b → guarded key data a b → guarded key data a b'.
Proof. intros Hb Hg Ha k Hk. apply Hg; lia. Qed.

(** Swaps inside a range, or away from it, keep what holds of all its keys. *)
Lemma swaps_all_range (P : Z → Prop) lo hi x y (data data' : list A) :
  swaps lo hi data data' → y ≤ length data →
  (x ≤ lo ∧ hi ≤ y) ∨ hi ≤ x ∨ y ≤ lo →
  (∀ k, x ≤ k < y → P (K key data k)) →
  ∀ k, x ≤ k < y → P (K key data' k).
Proof.
  intros Hs Hy [[Hlo Hhi]|Hout] HP.
  - destruct (decide (lo < hi)) as [Hne|He].
    + apply (swaps_all P x y data data'); [|done].
      eapply swaps_weaken; [| | |exact Hs]; lia.
    + intros k Hk. rewrite (swaps_K_outside lo hi k data data') by (done||lia).
      by apply HP.
  - intros k Hk. rewrite (swaps_K_outside lo hi k data data') by (done||lia).
    by apply HP.
Qed.

Lemma ordered_join (data : list A) a mid b :
  ordered key data a mid → ordered key data (S mid) b →
  (∀ k, a ≤ k < mid → (K key data k ≤ K key data mid)%Z) →
  (∀ k, S mid ≤ k < b → (K key data mid ≤ K key data k)%Z) →
  ordered key data a b.
Proof.
  intros Hl Hr Hlo Hhi p q ???.
  destruct (decide (q < mid)); [by apply Hl|].
  destruct (decide (mid < p)); [by apply Hr|].
  destruct (decide (p < mid)); destruct (decide (mid < q)).
  - use1 Hlo p. use1 Hhi q. lia.
  - replace q with mid by lia. apply Hlo. lia.
  - replace p with mid by lia. apply Hhi. lia.
  - replace p with mid by lia. replace q with mid by lia. done.
Qed.

(** Both sides of the pivot sorted in turn, in either order. *)
Lemma sorted_both_sides (d4 d5 d6 : list A) a mid b lo1 hi1 lo2 hi2 :
  a ≤ mid → mid < b → b ≤ length d4 →
  (lo1 = a ∧ hi1 = mid ∧ lo2 = S mid ∧ hi2 = b)
  ∨ (lo1 = S mid ∧ hi1 = b ∧ lo2 = a ∧ hi2 = mid) →
  (∀ k, a ≤ k < mid → (K key d4 k ≤ K key d4 mid)%Z) →
  (∀ k, S mid ≤ k < b → (K key d4 mid ≤ K key d4 k)%Z) →
  swaps lo1 hi1 d4 d5 → ordered key d5 lo1 hi1 →
  swaps lo2 hi2 d5 d6 → ordered key d6 lo2 hi2 →
  swaps a b d4 d6 ∧ ordered key d6 a b.
Proof.
  intros Ha Hmid Hb Hcase HL HR Hs5 Ho5 Hs6 Ho6.
  pose proof (swaps_length _ _ _ _ Hs5) as Hl5.
  assert (Hm : K key d6 mid = K key d4 mid).
  { rewrite (swaps_K_outside lo2 hi2 mid d5 d6) by (done || lia).
    rewrite (swaps_K_outside lo1 hi1 mid d4 d5) by (done || lia). done. }
  split.
  - eapply swaps_trans.
    + eapply swaps_weaken; [| | |exact Hs5]; lia.
    + eapply swaps_weaken; [| | |exact Hs6]; lia.
  - apply (ordered_join d6 a mid b).
    + destruct Hcase as [(-> & -> & -> & ->)|(-> & -> & -> & ->)]; [|done].
      eapply ordered_outside; [exact Hs6|lia|done].
    + destruct Hcase as [(-> & -> & -> & ->)|(-> & -> & -> & ->)]; [done|].
      eapply ordered_outside; [exact Hs6|lia|done].
    + rewrite Hm.
      apply (swaps_all_range (λ z, z ≤ K key d4 mid)%Z lo2 hi2 a mid d5 d6);
        [done|lia|lia|].
      apply (swaps_all_range (λ z, z ≤ K key d4 mid)%Z lo1 hi1 a mid d4 d5);
        [done|lia|lia|done].
    + rewrite Hm.
      apply (swaps_all_range (λ z, K key d4 mid ≤ z)%Z lo2 hi2 (S mid) b
               d5 d6); [done|lia|lia|].
      apply (swaps_all_range (λ z, K key d4 mid ≤ z)%Z lo1 hi1 (S mid) b
               d4 d5); [done|lia|lia|done].
Qed.


Lemma pdqsort_func_spec fuel (data : list A) a b limit wasBalanced
    wasPartitioned :
  a ≤ b → b ≤ length data → b - a < fuel → guarded key data a b →
  swaps a b data
    (pdqsort_func Less fuel data a b limit wasBalanced wasPartitioned)
  ∧ ordered key
      (pdqsort_func Less fuel data a b limit wasBalanced wasPartitioned) a b.
Proof.
  revert data a b limit wasBalanced wasPartitioned.
  induction fuel as [|fuel IH];
    intros data a b limit wasBalanced wasPartitioned Hab Hb Hfuel Hg;
    [lia|].
  cbn [pdqsort_func].
  destruct (Nat.leb_spec (b - a) maxInsertion) as [Hshort|Hlong];
    [by apply insertionSort_func_spec|].
  destruct (limit =? 0); [by apply heapSort_func_spec|].
  unfold maxInsertion in Hlong.
  assert (Hpre : ∃ d1 limit1,
    (if negb wasBalanced
     then (breakPatterns_func data a b, limit - 1) else (data, limit))
    = (d1, limit1) ∧ swaps a b data d1).
  { destruct wasBalanced; eexists _, _; (split; [reflexivity|]);
      [constructor|by apply breakPatterns_func_swaps]. }
  destruct Hpre as (d1 & limit1 & -> & Hs1).
  pose proof (swaps_length _ _ _ _ Hs1) as Hl1.
  pose proof (choosePivot_func_range d1 a b ltac:(lia)) as Hp.
  destruct (choosePivot_func Less d1 a b) as [pivot hint]. cbn [fst] in Hp.
  assert (Hrev : ∃ d2 pivot2 hint2,
    (if decide (hint = decreasingHint)
     then (reverseRange_func d1 a b, b - 1 - (pivot - a), increasingHint)
     else (d1, pivot, hint))
    = (d2, pivot2, hint2) ∧ swaps a b d1 d2 ∧ a ≤ pivot2 < b).
  { destruct (decide (hint = decreasingHint)); eexists _, _, _;
      (split; [reflexivity|]); (split; [|lia]);
      [apply reverseRange_func_swaps; lia|constructor]. }
  destruct Hrev as (d2 & pivot2 & hint2 & -> & Hs2 & Hp2).
  assert (Hs12 : swaps a b data d2) by (by eapply swaps_trans).
  pose proof (swaps_length _ _ _ _ Hs12) as Hl2.
  assert (Hg2 : guarded key d2 a b)
    by (by eapply swaps_guarded; [exact Hs12|..]).
  assert (Hpart : ∃ d3 sorted,
    (if wasBalanced && wasPartitioned && bool_decide (hint2 = increasingHint)
     then partialInsertionSort_func Less d2 a b else (d2, false))
    = (d3, sorted) ∧ swaps a b d2 d3
    ∧ (sorted = true → ordered key d3 a b)).
  { destruct (partialInsertionSort_func_spec d2 a b) as [Hs Ho];
      [lia|lia|done|].
    destruct (_ && _ && _).
    - destruct (partialInsertionSort_func Less d2 a b) as [d3 sorted].
      by exists d3, sorted.
    - exists d2, false. repeat split; [constructor|done]. }
  destruct Hpart as (d3 & sorted & -> & Hs3 & Ho3).
  assert (Hs13 : swaps a b data d3) by (by eapply swaps_trans).
  pose proof (swaps_length _ _ _ _ Hs13) as Hl3.
  assert (Hg3 : guarded key d3 a b)
    by (by eapply swaps_guarded; [exact Hs13|..]).
  destruct sorted; [by split; [|apply Ho3]|].
  clear Hs1 Hs2 Hs3 Hs12 Hl1 Hl2 Hg2 Ho3 d1 d2 Hp pivot hint hint2.
  match goal with
  | |- swaps _ _ _ ?X ∧ _ =>
      enough (swaps a b d3 X ∧ ordered key X a b) as [HsX HoX]
        by (split; [by eapply swaps_trans|done])
  end.
  assert (Hb' : b ≤ length d3) by lia. clear Hs13 Hg Hb Hl3 data.
  destruct ((0 <? a) && negb (Less d3 (a - 1) pivot2)) eqn:Hcond.
  { (* the pivot equals the element before the range *)
    apply andb_prop in Hcond as [Hpos%Nat.ltb_lt Hge].
    rewrite Less_K in Hge by lia. apply negb_true_iff, Z.ltb_ge in Hge.
    destruct (partitionEqual_func_spec d3 a b pivot2)
      as (d4 & mid & -> & Hs4 & Hmid & Hmin & Heq); [lia|lia| |].
    { intros k Hk. specialize (Hg3 Hpos k Hk). lia. }
    pose proof (swaps_length _ _ _ _ Hs4) as Hl4.
    destruct (IH d4 mid b limit1 wasBalanced wasPartitioned) as [Hs5 Ho5];
      [lia|lia|lia| |].
    { intros _ k Hk. use1 Heq (mid - 1). use1 Hmin k. lia. }
    set (d5 := pdqsort_func Less fuel d4 mid b limit1 _ _) in *.
    split.
    - eapply swaps_trans; [exact Hs4|].
      eapply swaps_weaken; [| | |exact Hs5]; lia.
    - intros p q ???.
      assert (Hlow : ∀ k, a ≤ k < mid → K key d5 k = K key d3 pivot2).
      { intros k Hk.
        rewrite (swaps_K_outside mid b k d4 d5) by (done || lia).
        use1 Hmin k. use1 Heq k. lia. }
      assert (Hhigh : ∀ k, mid ≤ k < b →
                (K key d3 pivot2 ≤ K key d5 k)%Z).
      { apply (swaps_all_range (λ z, K key d3 pivot2 ≤ z)%Z
                 mid b mid b d4 d5); [done|lia|lia|].
        intros k Hk. apply Hmin. lia. }
      destruct (decide (q < mid)); [rewrite !Hlow by lia; done|].
      destruct (decide (mid ≤ p)); [apply Ho5; lia|].
      rewrite (Hlow p) by lia. apply Hhigh. lia. }
  clear Hcond.
  destruct (partition_func_spec d3 a b pivot2)
    as (d4 & mid & flag & -> & Hs4 & Hmid & HL & HR); [lia|lia|].
  pose proof (swaps_length _ _ _ _ Hs4) as Hl4.
  cbv beta iota.
  replace (mid + 1) with (S mid) by lia.
  assert (Hg4 : guarded key d4 a b)
    by (by eapply swaps_guarded; [exact Hs4|..]).
  assert (HR' : ∀ k, S mid ≤ k < b → (K key d4 mid ≤ K key d4 k)%Z)
    by (intros k Hk; apply HR; lia).
  destruct (mid - a <? b - mid).
  - (* the left side first *)
    destruct (IH d4 a mid limit1 true true) as [Hs5 Ho5];
      [lia|lia|lia|by eapply guarded_shrink; [|exact Hg4]; lia|].
    set (d5 := pdqsort_func Less fuel d4 a mid limit1 true true) in *.
    pose proof (swaps_length _ _ _ _ Hs5) as Hl5.
    destruct (IH d5 (S mid) b limit1 ((b - a) / 8 <=? mid - a) flag)
      as [Hs6 Ho6]; [lia|lia|lia| |].
    { intros _ k Hk. replace (S mid - 1) with mid by lia.
      rewrite !(swaps_K_outside a mid _ d4 d5) by (done || lia).
      apply HR. lia. }
    destruct (sorted_both_sides d4 d5 _ a mid b a mid (S mid) b
                ltac:(lia) ltac:(lia) ltac:(lia) ltac:(by left)
                HL HR' Hs5 Ho5 Hs6 Ho6) as [Hs Ho].
    split; [by eapply swaps_trans|done].
  - (* the right side first *)
    destruct (IH d4 (S mid) b limit1 true true) as [Hs5 Ho5];
      [lia|lia|lia| |].
    { intros _ k Hk. replace (S mid - 1) with mid by lia. apply HR. lia. }
    set (d5 := pdqsort_func Less fuel d4 (S mid) b limit1 true true) in *.
    pose proof (swaps_length _ _ _ _ Hs5) as Hl5.
    destruct (IH d5 a mid limit1 ((b - a) / 8 <=? b - mid) flag)
      as [Hs6 Ho6]; [lia|lia|lia| |].
    { eapply guarded_shrink with (b := b); [lia|].
      eapply swaps_guarded; [exact Hs5|lia|lia|done]. }
    destruct (sorted_both_sides d4 d5 _ a mid b (S mid) b a mid
                ltac:(lia) ltac:(lia) ltac:(lia) ltac:(by right)
                HL HR' Hs5 Ho5 Hs6 Ho6) as [Hs Ho].
    split; [by eapply swaps_trans|done].
Qed.


(** *** [sort.Slice] *)

Lemma Slice_spec (x : list A) :
  swaps 0 (length x) x (Slice Less x)
  ∧ ordered key (Slice Less x) 0 (length x).
Proof.
  unfold Slice. apply pdqsort_func_spec; [lia|lia|lia|].
  intros Ha. lia.
Qed.

Lemma Slice_Permutation (x : list A) : Slice Less x ≡ₚ x.
Proof. eapply swaps_Permutation, Slice_spec. Qed.

Lemma Slice_length (x : list A) : length (Slice Less x) = length x.
Proof. eapply swaps_length, Slice_spec. Qed.

(** The keys of the sorted slice ascend. *)
Lemma Slice_sorted (x : list A) i j p q :
  i < j → Slice Less x !! i = Some p → Slice Less x !! j = Some q →
  (key p ≤ key q)%Z.
Proof.
  intros Hij Hp Hq. destruct (Slice_spec x) as [_ Hord].
  specialize (Hord i j ltac:(lia) ltac:(lia)).
  unfold K in Hord. rewrite Hp, Hq in Hord. simpl in Hord.
  apply Hord. rewrite <- Slice_length. by eapply lookup_lt_Some.
Qed.

End keyed.
End sort_facts.

(** ** The program, step by step *)

Ltac run_io :=
  unfold mbind, mret, IO_bind, IO_ret, http.Get, log_Printf, io_ReadAll in *;
  simpl in *.

Section fetch.
Context `{Json}.

Lemma append_String (c : Ascii.ascii) (s t : string) :
  String c s +:+ t = String c (s +:+ t).
Proof. reflexivity. Qed.

Lemma append_assoc (s1 s2 s3 : string) :
  (s1 +:+ s2) +:+ s3 = s1 +:+ s2 +:+ s3.
Proof.
  induction s1 as [|c s1 IH]; [done|]. by rewrite !append_String, IH.
Qed.

Lemma Join_concat (elems : list string) (sep : string) :
  strings.Join elems sep = String.concat sep elems.
Proof.
  destruct elems as [|e rest]; [done|].
  revert e. induction rest as [|s rest IH]; intros e; [done|].
  destruct rest as [|s' rest].
  - simpl. done.
  - change (strings.Join (e :: s :: s' :: rest) sep)
      with (strings.Join ((e +:+ sep +:+ s) :: s' :: rest) sep).
    rewrite IH.
    change (String.concat sep (?x :: s' :: rest))
      with (x +:+ sep +:+ String.concat sep (s' :: rest)).
    change (String.concat sep (e :: s :: s' :: rest))
      with (e +:+ sep +:+ s +:+ sep +:+ String.concat sep (s' :: rest)).
    by rewrite !append_assoc.
Qed.

(** The multi-tag fetch is the single-tag fetch of the joined tags. *)
Lemma fetchWithTags_joined (tags : list string) :
  fetchCodeforcesProblemSetWithTags tags
  = fetchCodeforcesProblemSetWithTag (strings.Join tags ";").
Proof. reflexivity. Qed.

(** A fetch succeeds exactly when the world answers with a body that
    decodes; the result is the decoded list, sorted. *)
Lemma fetchWithTag_Ok (tag : string) (w w' : World) (ps : list Problem) :
  fetchCodeforcesProblemSetWithTag tag w = (Ok ps, w')
  ↔ ∃ c, answers w (problemsetURL tag) c
         ∧ ps = sort.Slice lessRating (Problems (Result c))
         ∧ w' = visited (problemsetURL tag) w.
Proof.
  unfold fetchCodeforcesProblemSetWithTag, answers. run_io.
  fold (problemsetURL tag).
  destruct (upstream w (problemsetURL tag)) as [response|err] eqn:Hget.
  - destruct (Body response) as [text|err] eqn:Hbody.
    + destruct (json_Unmarshal text) as [c|err] eqn:Hjson.
      * split.
        -- intros [= <- <-]. exists c. split; [|done]. by exists response, text.
        -- intros (c' & (response' & text' & [= <-] & Hb & Hj) & -> & ->).
           rewrite Hbody in Hb. injection Hb as <-.
           rewrite Hjson in Hj. by injection Hj as <-.
      * split; [done|].
        intros (c' & (response' & text' & [= <-] & Hb & Hj) & _).
        rewrite Hbody in Hb. injection Hb as <-. congruence.
    + split; [done|].
      intros (c' & (response' & text' & [= <-] & Hb & Hj) & _). congruence.
  - split; [done|].
    intros (c' & (response' & text' & ? & _) & _). congruence.
Qed.

Lemma fetchWithTags_Ok (tags : list string) (w w' : World)
    (ps : list Problem) :
  fetchCodeforcesProblemSetWithTags tags w = (Ok ps, w')
  ↔ ∃ c, answers w (problemsetURL (strings.Join tags ";")) c
         ∧ ps = sort.Slice lessRating (Problems (Result c))
         ∧ w' = visited (problemsetURL (strings.Join tags ";")) w.
Proof. rewrite fetchWithTags_joined. apply fetchWithTag_Ok. Qed.

(** The loop of the "only" fetches is a filter on the tag count. *)
Lemma only_loop (k : nat) (allProblems problems : list Problem) :
  foldl (λ problems problem,
           if length (Tags problem) =? k
           then problems ++ [problem] else problems)
        problems allProblems
  = problems ++ filter (has_tag_count k) allProblems.
Proof.
  revert problems.
  induction allProblems as [|p l IH]; intros problems; simpl.
  - by rewrite app_nil_r.
  - rewrite IH, filter_cons. unfold has_tag_count at 2.
    destruct (Nat.eqb_spec (length (Tags p)) k).
    + rewrite decide_True by done. by rewrite <- app_assoc.
    + by rewrite decide_False by done.
Qed.

Lemma fetchWithTagOnly_Ok (tag : string) (w w' : World) (ps : list Problem) :
  fetchCodeforcesProblemSetWithTagOnly tag w = (Ok ps, w')
  ↔ ∃ allProblems,
      fetchCodeforcesProblemSetWithTag tag w = (Ok allProblems, w')
      ∧ ps = filter (has_tag_count 1) allProblems.
Proof.
  unfold fetchCodeforcesProblemSetWithTagOnly. run_io.
  destruct (fetchCodeforcesProblemSetWithTag tag w) as [[allProblems|err] w1].
  - rewrite only_loop. simpl. split.
    + intros [= <- <-]. by exists allProblems.
    + by intros (? & [= <- <-] & ->).
  - split; [done|]. by intros (? & ? & _).
Qed.

Lemma fetchWithTagsOnly_Ok (tags : list string) (w w' : World)
    (ps : list Problem) :
  fetchCodeforcesProblemSetWithTagsOnly tags w = (Ok ps, w')
  ↔ ∃ allProblems,
      fetchCodeforcesProblemSetWithTags tags w = (Ok allProblems, w')
      ∧ ps = filter (has_tag_count (length tags)) allProblems.
Proof.
  unfold fetchCodeforcesProblemSetWithTagsOnly. run_io.
  destruct (fetchCodeforcesProblemSetWithTags tags w)
    as [[allProblems|err] w1].
  - rewrite only_loop. simpl. split.
    + intros [= <- <-]. by exists allProblems.
    + by intros (? & [= <- <-] & ->).
  - split; [done|]. by intros (? & ? & _).
Qed.

End fetch.

Section frame.
Context `{Json}.

(** Whatever comes back, a fetch asks upstream exactly once, for the URL
    of its tag; beyond that it only adds lines to the log. *)
Lemma fetchWithTag_world (tag : string) (w : World) :
  ∃ lines,
    (fetchCodeforcesProblemSetWithTag tag w).2
    = {| upstream := upstream w;
         requests := requests w ++ [problemsetURL tag];
         logged := logged w ++ lines |}.
Proof.
  unfold fetchCodeforcesProblemSetWithTag. run_io. fold (problemsetURL tag).
  destruct (upstream w (problemsetURL tag)) as [response|err];
    [destruct (Body response) as [text|err];
     [destruct (json_Unmarshal text) as [c|err]|]|]; simpl;
    try (by eexists [_]).
  exists []. by rewrite app_nil_r.
Qed.

Lemma fetchWithTagOnly_world (tag : string) (w : World) :
  ∃ lines,
    (fetchCodeforcesProblemSetWithTagOnly tag w).2
    = {| upstream := upstream w;
         requests := requests w ++ [problemsetURL tag];
         logged := logged w ++ lines |}.
Proof.
  destruct (fetchWithTag_world tag w) as [lines Hw].
  unfold fetchCodeforcesProblemSetWithTagOnly. run_io.
  destruct (fetchCodeforcesProblemSetWithTag tag w) as [[ps|err] w1];
    simpl in *; subst w1; simpl.
  - by exists lines.
  - eexists (lines ++ [_]). by rewrite app_assoc.
Qed.

Lemma fetchWithTagsOnly_world (tags : list string) (w : World) :
  ∃ lines,
    (fetchCodeforcesProblemSetWithTagsOnly tags w).2
    = {| upstream := upstream w;
         requests := requests w ++ [problemsetURL (strings.Join tags ";")];
         logged := logged w ++ lines |}.
Proof.
  destruct (fetchWithTag_world (strings.Join tags ";") w) as [lines Hw].
  unfold fetchCodeforcesProblemSetWithTagsOnly. run_io.
  rewrite fetchWithTags_joined.
  destruct (fetchCodeforcesProblemSetWithTag _ w) as [[ps|err] w1];
    simpl in *; subst w1; simpl.
  - by exists lines.
  - eexists (lines ++ [_]). by rewrite app_assoc.
Qed.

(** The outcome of a fetch is read off the answer of upstream: the status
    code plays no part. *)
Lemma fetchWithTag_outcome (tag : string) (w : World) :
  (fetchCodeforcesProblemSetWithTag tag w).1
  = match upstream w (problemsetURL tag) with
    | Err err => Err err
    | Ok response =>
        match Body response with
        | Err err => Err err
        | Ok text =>
            match json_Unmarshal text with
            | Err err => Err err
            | Ok c => Ok (sort.Slice lessRating (Problems (Result c)))
            end
        end
    end.
Proof.
  unfold fetchCodeforcesProblemSetWithTag. run_io. fold (problemsetURL tag).
  destruct (upstream w (problemsetURL tag)) as [response|err];
    [destruct (Body response) as [text|err];
     [destruct (json_Unmarshal text) as [c|err]|]|]; done.
Qed.

Lemma fetchWithTagOnly_outcome (tag : string) (w : World) :
  (fetchCodeforcesProblemSetWithTagOnly tag w).1
  = match (fetchCodeforcesProblemSetWithTag tag w).1 with
    | Err err => Err err
    | Ok allProblems => Ok (filter (has_tag_count 1) allProblems)
    end.
Proof.
  unfold fetchCodeforcesProblemSetWithTagOnly. run_io.
  destruct (fetchCodeforcesProblemSetWithTag tag w) as [[ps|err] w1];
    simpl; [|done]. by rewrite only_loop.
Qed.

Lemma fetchWithTagsOnly_outcome (tags : list string) (w : World) :
  (fetchCodeforcesProblemSetWithTagsOnly tags w).1
  = match (fetchCodeforcesProblemSetWithTags tags w).1 with
    | Err err => Err err
    | Ok allProblems => Ok (filter (has_tag_count (length tags)) allProblems)
    end.
Proof.
  unfold fetchCodeforcesProblemSetWithTagsOnly. run_io.
  destruct (fetchCodeforcesProblemSetWithTags tags w) as [[ps|err] w1];
    simpl; [|done]. by rewrite only_loop.
Qed.

Lemma Values_Get_empty (q : gmap string (list string)) (key : string) :
  empty_or_absent q key → http.Values_Get q key = "".
Proof.
  unfold http.Values_Get. by intros [-> | [-> | [vs ->]]].
Qed.

End frame.

(** ** Properties of the specification *)

(** C9: for every request to /health the handler answers 200 with body
    "ok", whatever the request holds and whatever upstream would answer;
    upstream is not even asked (the world is left as it was). *)
Theorem C9_health_always_ok (r : http.Request) (w : World) :
  healthHandler http.newResponseWriter r w = (sent 200 "ok", w).
Proof. reflexivity. Qed.

(** C2: an "only" fetch keeps exactly the problems of the fetch whose tag
    collection has as many elements as tags were requested (one, for the
    single-tag variant), in their order; which tags they are plays no part. *)
Theorem C2_only_keeps_exact_tag_count `{Json} (w w' : World)
    (allProblems : list Problem) :
  (∀ tag,
     fetchCodeforcesProblemSetWithTag tag w = (Ok allProblems, w') →
     fetchCodeforcesProblemSetWithTagOnly tag w
     = (Ok (filter (λ p, length (Tags p) = 1) allProblems), w'))
  ∧ (∀ tags,
       fetchCodeforcesProblemSetWithTags tags w = (Ok allProblems, w') →
       fetchCodeforcesProblemSetWithTagsOnly tags w
       = (Ok (filter (λ p, length (Tags p) = length tags) allProblems), w')).
Proof.
  split.
  - intros tag Hall. apply fetchWithTagOnly_Ok. by exists allProblems.
  - intros tags Hall. apply fetchWithTagsOnly_Ok. by exists allProblems.
Qed.

(** Asked for "graphs", the single-tag "only" fetch keeps the two problems
    tagged "dp" alone; asked for "math" and "trees", the multi-tag one keeps
    the problem tagged "dp" and "graphs". *)
Lemma C2_only_keeps_exact_tag_count_witness :
  let w := sample.serving 200 (sample.document (sample.listing "OK" sample.catalog)) in
  let sorted := [sample.problem "B" "Paths" 900 ["dp"; "graphs"];
                 sample.problem "A" "Knapsack" 1200 ["dp"];
                 sample.problem "C" "Coins" 1600 ["dp"]] in
  @fetchCodeforcesProblemSetWithTagOnly sample.json "graphs" w
  = (Ok [sample.problem "A" "Knapsack" 1200 ["dp"];
         sample.problem "C" "Coins" 1600 ["dp"]],
     visited (problemsetURL "graphs") w)
  ∧ @fetchCodeforcesProblemSetWithTagsOnly sample.json ["math"; "trees"] w
    = (Ok [sample.problem "B" "Paths" 900 ["dp"; "graphs"]],
       visited (problemsetURL "math;trees") w).
Proof.
  intros w sorted. split.
  - apply (proj1 (@C2_only_keeps_exact_tag_count sample.json w
                    (visited (problemsetURL "graphs") w) sorted) "graphs").
    vm_compute. reflexivity.
  - apply (proj2 (@C2_only_keeps_exact_tag_count sample.json w
                    (visited (problemsetURL "math;trees") w) sorted)
             ["math"; "trees"]).
    vm_compute. reflexivity.
Defined.

(** C5: every fetch asks upstream for the base URL, the problem-set method
    and "?tags=" followed by the tag, or by the tags joined with ";"; the
    handlers forward an empty or absent parameter as the empty tags value. *)
Theorem C5_request_url `{Json} (w : World) :
  (∀ tag,
     requests (fetchCodeforcesProblemSetWithTag tag w).2
     = requests w
       ++ ["https://codeforces.com/api/" +:+ "problemset.problems"
           +:+ "?tags=" +:+ tag]
     ∧ requests (fetchCodeforcesProblemSetWithTagOnly tag w).2
       = requests (fetchCodeforcesProblemSetWithTag tag w).2)
  ∧ (∀ tags,
       requests (fetchCodeforcesProblemSetWithTags tags w).2
       = requests w
         ++ ["https://codeforces.com/api/" +:+ "problemset.problems"
             +:+ "?tags=" +:+ String.concat ";" tags]
       ∧ requests (fetchCodeforcesProblemSetWithTagsOnly tags w).2
         = requests (fetchCodeforcesProblemSetWithTags tags w).2)
  ∧ (∀ rw r,
       empty_or_absent (http.Query r) "tag" →
       requests (problemsByTagHandler rw r w).2
       = requests w
         ++ ["https://codeforces.com/api/problemset.problems?tags="]
       ∧ requests (problemsByTagOnlyHandler rw r w).2
         = requests w
           ++ ["https://codeforces.com/api/problemset.problems?tags="])
  ∧ (∀ rw r,
       empty_or_absent (http.Query r) "tags" →
       requests (problemsByTagsHandler rw r w).2
       = requests w
         ++ ["https://codeforces.com/api/problemset.problems?tags="]
       ∧ requests (problemsByTagsOnlyHandler rw r w).2
         = requests w
           ++ ["https://codeforces.com/api/problemset.problems?tags="]).
Proof.
  assert (Htag : ∀ tag,
    requests (fetchCodeforcesProblemSetWithTag tag w).2
    = requests w ++ [problemsetURL tag]).
  { intros tag. destruct (fetchWithTag_world tag w) as [lines ->]. done. }
  assert (Honly : ∀ tag,
    requests (fetchCodeforcesProblemSetWithTagOnly tag w).2
    = requests w ++ [problemsetURL tag]).
  { intros tag. destruct (fetchWithTagOnly_world tag w) as [lines ->]. done. }
  assert (Htagsonly : ∀ tags,
    requests (fetchCodeforcesProblemSetWithTagsOnly tags w).2
    = requests w ++ [problemsetURL (strings.Join tags ";")]).
  { intros tags. destruct (fetchWithTagsOnly_world tags w) as [lines ->].
    done. }
  split; [|split; [|split]].
  - intros tag. by rewrite Honly, Htag.
  - intros tags. rewrite Htagsonly, fetchWithTags_joined, Htag.
    by rewrite Join_concat.
  - intros rw r Hq%Values_Get_empty. split.
    + unfold problemsByTagHandler. rewrite Hq.
      specialize (Htag ""). run_io.
      destruct (fetchCodeforcesProblemSetWithTag "" w) as [[ps|err] w1];
        [destruct (Encoder_Encode rw ps) as [? [?|]]|]; exact Htag.
    + unfold problemsByTagOnlyHandler. rewrite Hq.
      specialize (Honly ""). run_io.
      destruct (fetchCodeforcesProblemSetWithTagOnly "" w) as [[ps|err] w1];
        [destruct (Encoder_Encode rw ps) as [? [?|]]|]; exact Honly.
  - intros rw r Hq%Values_Get_empty. split.
    + unfold problemsByTagsHandler. rewrite Hq.
      change (strings.Split "" ",") with [""].
      rewrite fetchWithTags_joined. specialize (Htag ""). run_io.
      destruct (fetchCodeforcesProblemSetWithTag "" w) as [[ps|err] w1];
        [destruct (Encoder_Encode rw ps) as [? [?|]]|]; exact Htag.
    + unfold problemsByTagsOnlyHandler. rewrite Hq.
      change (strings.Split "" ",") with [""].
      specialize (Htagsonly [""]). run_io.
      destruct (fetchCodeforcesProblemSetWithTagsOnly [""] w)
        as [[ps|err] w1];
        [destruct (Encoder_Encode rw ps) as [? [?|]]|]; exact Htagsonly.
Qed.

(** A request without parameters, and one whose tags value is empty. *)
Lemma C5_request_url_witness :
  requests
    (@problemsByTagOnlyHandler sample.json http.newResponseWriter
       (sample.request "/problems/only" []) sample.unreachable).2
  = ["https://codeforces.com/api/problemset.problems?tags="]
  ∧ requests
      (@problemsByTagsHandler sample.json http.newResponseWriter
         (sample.request "/problems/multi" [("tags", [""])])
         sample.unreachable).2
    = ["https://codeforces.com/api/problemset.problems?tags="].
Proof.
  pose proof (@C5_request_url sample.json sample.unreachable)
    as (_ & _ & Htag & Htags).
  split.
  - apply Htag. left. vm_compute. reflexivity.
  - apply Htags. right. right. exists []. vm_compute. reflexivity.
Defined.

(** What a problem handler sends once its fetch has come back. *)
Ltac handler_reply :=
  run_io;
  repeat match goal with
         | Hfetch : ?fetch = (_, _) |- context [?fetch] => rewrite Hfetch
         end;
  unfold Encoder_Encode;
  repeat match goal with
         | Hjson : json_Marshal _ = _ |- _ => rewrite Hjson
         end;
  reflexivity.

(** C7: in each of the four problem handlers, a fetch that returns an error
    (transport, read or JSON decoding) is answered with status 500 and the
    error's text as the body (a line: [http.Error] ends it with a newline); a fetch
    that succeeds is answered with status 200 and the JSON encoding of the
    problems. *)
Theorem C7_handler_reply `{Json} (r : http.Request) (w w' : World) :
  let tag := http.Values_Get (http.Query r) "tag" in
  let tags := strings.Split (http.Values_Get (http.Query r) "tags") "," in
  (∀ err,
     (fetchCodeforcesProblemSetWithTag tag w = (Err err, w') →
      problemsByTagHandler http.newResponseWriter r w
      = (sent 500 (Error err +:+ newline), w'))
     ∧ (fetchCodeforcesProblemSetWithTags tags w = (Err err, w') →
        problemsByTagsHandler http.newResponseWriter r w
        = (sent 500 (Error err +:+ newline), w'))
     ∧ (fetchCodeforcesProblemSetWithTagOnly tag w = (Err err, w') →
        problemsByTagOnlyHandler http.newResponseWriter r w
        = (sent 500 (Error err +:+ newline), w'))
     ∧ (fetchCodeforcesProblemSetWithTagsOnly tags w = (Err err, w') →
        problemsByTagsOnlyHandler http.newResponseWriter r w
        = (sent 500 (Error err +:+ newline), w')))
  ∧ (∀ problems text,
       json_Marshal problems = Ok text →
       (fetchCodeforcesProblemSetWithTag tag w = (Ok problems, w') →
        problemsByTagHandler http.newResponseWriter r w
        = (sent 200 (text +:+ newline), w'))
       ∧ (fetchCodeforcesProblemSetWithTags tags w = (Ok problems, w') →
          problemsByTagsHandler http.newResponseWriter r w
          = (sent 200 (text +:+ newline), w'))
       ∧ (fetchCodeforcesProblemSetWithTagOnly tag w = (Ok problems, w') →
          problemsByTagOnlyHandler http.newResponseWriter r w
          = (sent 200 (text +:+ newline), w'))
       ∧ (fetchCodeforcesProblemSetWithTagsOnly tags w = (Ok problems, w') →
          problemsByTagsOnlyHandler http.newResponseWriter r w
          = (sent 200 (text +:+ newline), w'))).
Proof.
  intros tag tags. split.
  - intros err. repeat split; intros Hfetch.
    + unfold problemsByTagHandler. fold tag. handler_reply.
    + unfold problemsByTagsHandler. fold tags. handler_reply.
    + unfold problemsByTagOnlyHandler. fold tag. handler_reply.
    + unfold problemsByTagsOnlyHandler. fold tags. handler_reply.
  - intros problems text Hjson. repeat split; intros Hfetch.
    + unfold problemsByTagHandler. fold tag. handler_reply.
    + unfold problemsByTagsHandler. fold tags. handler_reply.
    + unfold problemsByTagOnlyHandler. fold tag. handler_reply.
    + unfold problemsByTagsOnlyHandler. fold tags. handler_reply.
Qed.

(** /problems/only?tag=dp when upstream cannot be reached, and
    /problems/multi/only?tags=dp,graphs when it serves the catalog. *)
Lemma C7_handler_reply_witness :
  (@problemsByTagOnlyHandler sample.json http.newResponseWriter
     (sample.request "/problems/only" [("tag", ["dp"])])
     sample.unreachable).1
  = sent 500 ("dial tcp: connect: connection refused" +:+ newline)
  ∧ (@problemsByTagsOnlyHandler sample.json http.newResponseWriter
       (sample.request "/problems/multi/only" [("tags", ["dp,graphs"])])
       (sample.serving 200
          (sample.document (sample.listing "OK" sample.catalog)))).1
    = sent 200
        (sample.array
           [sample.marshal_problem
              (sample.problem "B" "Paths" 900 ["dp"; "graphs"])]
         +:+ newline).
Proof.
  split.
  - set (r := sample.request "/problems/only" [("tag", ["dp"])]).
    set (w := sample.unreachable).
    pose proof (@C7_handler_reply sample.json r w
                  (@fetchCodeforcesProblemSetWithTagOnly sample.json "dp" w).2)
      as [Herr _].
    destruct (Herr (mkError "dial tcp: connect: connection refused"))
      as (_ & _ & Honly & _).
    rewrite Honly; [reflexivity|]. vm_compute. reflexivity.
  - set (r := sample.request "/problems/multi/only" [("tags", ["dp,graphs"])]).
    set (w := sample.serving 200
                (sample.document (sample.listing "OK" sample.catalog))).
    pose proof (@C7_handler_reply sample.json r w
                  (@fetchCodeforcesProblemSetWithTagsOnly sample.json
                     ["dp"; "graphs"] w).2)
      as [_ Hok].
    destruct (Hok [sample.problem "B" "Paths" 900 ["dp"; "graphs"]]
                (sample.array
                   [sample.marshal_problem
                      (sample.problem "B" "Paths" 900 ["dp"; "graphs"])]))
      as (_ & _ & _ & Honly); [reflexivity|].
    rewrite Honly; [reflexivity|]. vm_compute. reflexivity.
Defined.

(** C8: the status field of the envelope is never looked at. When two
    worlds answer with bodies that decode to envelopes with the same
    result, whatever their status fields say, every fetch succeeds in both
    and returns the same list, computed from the problems of the result. *)
Theorem C8_status_field_ignored `{Json} (w1 w2 : World)
    (c1 c2 : CodeforcesResponse) :
  Result c1 = Result c2 →
  let sorted := sort.Slice lessRating (Problems (Result c1)) in
  (∀ tag,
     answers w1 (problemsetURL tag) c1 →
     answers w2 (problemsetURL tag) c2 →
     (fetchCodeforcesProblemSetWithTag tag w1).1 = Ok sorted
     ∧ (fetchCodeforcesProblemSetWithTag tag w2).1 = Ok sorted
     ∧ (fetchCodeforcesProblemSetWithTagOnly tag w1).1
       = Ok (filter (has_tag_count 1) sorted)
     ∧ (fetchCodeforcesProblemSetWithTagOnly tag w2).1
       = Ok (filter (has_tag_count 1) sorted))
  ∧ (∀ tags,
       answers w1 (problemsetURL (strings.Join tags ";")) c1 →
       answers w2 (problemsetURL (strings.Join tags ";")) c2 →
       (fetchCodeforcesProblemSetWithTags tags w1).1 = Ok sorted
       ∧ (fetchCodeforcesProblemSetWithTags tags w2).1 = Ok sorted
       ∧ (fetchCodeforcesProblemSetWithTagsOnly tags w1).1
         = Ok (filter (has_tag_count (length tags)) sorted)
       ∧ (fetchCodeforcesProblemSetWithTagsOnly tags w2).1
         = Ok (filter (has_tag_count (length tags)) sorted)).
Proof.
  intros Hresult sorted.
  assert (Hfetch : ∀ tag w c,
    answers w (problemsetURL tag) c →
    (fetchCodeforcesProblemSetWithTag tag w).1
    = Ok (sort.Slice lessRating (Problems (Result c)))).
  { intros tag w c (response & text & Hget & Hbody & Hjson).
    by rewrite fetchWithTag_outcome, Hget, Hbody, Hjson. }
  split.
  - intros tag H1%Hfetch H2%Hfetch. rewrite <- Hresult in H2.
    rewrite !fetchWithTagOnly_outcome, H1, H2. done.
  - intros tags H1%Hfetch H2%Hfetch. rewrite <- Hresult in H2.
    rewrite !fetchWithTagsOnly_outcome, !fetchWithTags_joined, H1, H2. done.
Qed.

(** The catalog under status OK and under status FAILED. *)
Lemma C8_status_field_ignored_witness :
  let w1 := sample.serving 200
              (sample.document (sample.listing "OK" sample.catalog)) in
  let w2 := sample.serving 200
              (sample.document (sample.listing "FAILED" sample.catalog)) in
  (@fetchCodeforcesProblemSetWithTag sample.json "dp" w1).1
  = (@fetchCodeforcesProblemSetWithTag sample.json "dp" w2).1
  ∧ (@fetchCodeforcesProblemSetWithTagsOnly sample.json ["dp"; "graphs"] w1).1
    = (@fetchCodeforcesProblemSetWithTagsOnly sample.json ["dp"; "graphs"] w2).1.
Proof.
  intros w1 w2.
  pose proof (@C8_status_field_ignored sample.json w1 w2
                (sample.listing "OK" sample.catalog)
                (sample.listing "FAILED" sample.catalog) eq_refl)
    as [Htag Htags].
  split.
  - destruct (Htag "dp") as (-> & -> & _); [| |reflexivity].
    + eexists _, _. repeat split; vm_compute; reflexivity.
    + eexists _, _. repeat split; vm_compute; reflexivity.
  - destruct (Htags ["dp"; "graphs"]) as (_ & _ & -> & ->); [| |reflexivity].
    + eexists _, _. repeat split; vm_compute; reflexivity.
    + eexists _, _. repeat split; vm_compute; reflexivity.
Defined.




(** ** The sort stage of the fetches *)

Section sorted_fetch.

(** The closure of the fetches compares ratings. *)
Lemma lessRating_key (problems : list Problem) i j p q :
  problems !! i = Some p → problems !! j = Some q →
  lessRating problems i j = (Rating p <? Rating q)%Z.
Proof.
  intros Hp Hq. unfold lessRating.
  by rewrite (list_lookup_total_correct _ _ _ Hp),
    (list_lookup_total_correct _ _ _ Hq).
Qed.

Lemma sorted_problems_Permutation (problems : list Problem) :
  sort.Slice lessRating problems ≡ₚ problems.
Proof. apply (sort_facts.Slice_Permutation Rating), lessRating_key. Qed.

Lemma sorted_problems_by_rating (problems : list Problem) :
  sorted_by_rating (sort.Slice lessRating problems).
Proof.
  intros i j p q. apply (sort_facts.Slice_sorted Rating), lessRating_key.
Qed.

Lemma sorted_by_rating_cons (p : Problem) (ps : list Problem) :
  sorted_by_rating (p :: ps)
  ↔ Forall (λ q, (Rating p ≤ Rating q)%Z) ps ∧ sorted_by_rating ps.
Proof.
  split.
  - intros Hs. split.
    + apply Forall_lookup. intros i q Hq.
      apply (Hs 0 (S i) p q); [lia|done|done].
    + intros i j x y Hij Hx Hy. apply (Hs (S i) (S j) x y); [lia|done|done].
  - intros [Hall Hs] i j x y Hij Hx Hy.
    destruct j as [|j]; [lia|]. simpl in Hy.
    destruct i as [|i].
    + injection Hx as <-.
      by apply (proj1 (Forall_lookup _ _) Hall j y).
    + apply (Hs i j x y); [lia|done|done].
Qed.

(** A subsequence of a list sorted by rating is sorted by rating. *)
Lemma sorted_by_rating_sublist (ps qs : list Problem) :
  ps `sublist_of` qs → sorted_by_rating qs → sorted_by_rating ps.
Proof.
  induction 1 as [|x ps qs Hsub IH|x ps qs Hsub IH]; [done|..].
  - rewrite !sorted_by_rating_cons. intros [Hall Hs]. split; [|by apply IH].
    apply Forall_forall. intros q Hq.
    apply (proj1 (Forall_forall _ _) Hall). by eapply elem_of_sublist.
  - rewrite sorted_by_rating_cons. intros [_ Hs]. by apply IH.
Qed.

End sorted_fetch.

(** C1: whenever a single-tag or a multi-tag fetch succeeds, the list it
    returns is sorted by rating ascending: for all indices [i < j],
    [result[i].rating ≤ result[j].rating]. *)
Theorem C1_fetch_sorted_by_rating `{Json} (w w' : World)
    (ps : list Problem) :
  (∀ tag,
     fetchCodeforcesProblemSetWithTag tag w = (Ok ps, w') →
     ∀ i j p q, i < j → ps !! i = Some p → ps !! j = Some q →
       (Rating p ≤ Rating q)%Z)
  ∧ (∀ tags,
       fetchCodeforcesProblemSetWithTags tags w = (Ok ps, w') →
       ∀ i j p q, i < j → ps !! i = Some p → ps !! j = Some q →
         (Rating p ≤ Rating q)%Z).
Proof.
  split.
  - intros tag (c & _ & -> & _)%fetchWithTag_Ok.
    apply sorted_problems_by_rating.
  - intros tags (c & _ & -> & _)%fetchWithTags_Ok.
    apply sorted_problems_by_rating.
Qed.

(** The scenario of the specification: upstream lists ratings 1200, 900,
    1600; the fetch returns them as 900, 1200, 1600. *)
Lemma C1_fetch_sorted_by_rating_witness :
  let w := sample.serving 200
             (sample.document (sample.listing "OK" sample.catalog)) in
  (@fetchCodeforcesProblemSetWithTag sample.json "dp" w).1
  = Ok [sample.problem "B" "Paths" 900 ["dp"; "graphs"];
        sample.problem "A" "Knapsack" 1200 ["dp"];
        sample.problem "C" "Coins" 1600 ["dp"]]
  ∧ (900 ≤ 1600)%Z.
Proof.
  intros w. split; [vm_compute; reflexivity|].
  pose proof (@C1_fetch_sorted_by_rating sample.json w
                (visited (problemsetURL "dp") w)
                [sample.problem "B" "Paths" 900 ["dp"; "graphs"];
                 sample.problem "A" "Knapsack" 1200 ["dp"];
                 sample.problem "C" "Coins" 1600 ["dp"]]) as [Htag _].
  apply (Htag "dp" ltac:(vm_compute; reflexivity) 0 2
           (sample.problem "B" "Paths" 900 ["dp"; "graphs"])
           (sample.problem "C" "Coins" 1600 ["dp"]));
    [lia|reflexivity|reflexivity].
Defined.

(** C6: an "only" fetch filters the list that the fetch has already
    sorted: what it returns is a subsequence of the sorted fetch result, in
    the same order, and so is itself sorted by rating ascending. *)
Theorem C6_only_sorted_subsequence `{Json} (w w' : World)
    (ps : list Problem) :
  (∀ tag,
     fetchCodeforcesProblemSetWithTagOnly tag w = (Ok ps, w') →
     ∃ allProblems,
       fetchCodeforcesProblemSetWithTag tag w = (Ok allProblems, w')
       ∧ sorted_by_rating allProblems
       ∧ ps `sublist_of` allProblems
       ∧ sorted_by_rating ps)
  ∧ (∀ tags,
       fetchCodeforcesProblemSetWithTagsOnly tags w = (Ok ps, w') →
       ∃ allProblems,
         fetchCodeforcesProblemSetWithTags tags w = (Ok allProblems, w')
         ∧ sorted_by_rating allProblems
         ∧ ps `sublist_of` allProblems
         ∧ sorted_by_rating ps).
Proof.
  split.
  - intros tag (allProblems & Hall & ->)%fetchWithTagOnly_Ok.
    exists allProblems. split; [done|].
    assert (Hsorted : sorted_by_rating allProblems).
    { apply fetchWithTag_Ok in Hall as (c & _ & -> & _).
      apply sorted_problems_by_rating. }
    repeat split; [done|apply sublist_filter|].
    eapply sorted_by_rating_sublist; [apply sublist_filter|done].
  - intros tags (allProblems & Hall & ->)%fetchWithTagsOnly_Ok.
    exists allProblems. split; [done|].
    assert (Hsorted : sorted_by_rating allProblems).
    { apply fetchWithTags_Ok in Hall as (c & _ & -> & _).
      apply sorted_problems_by_rating. }
    repeat split; [done|apply sublist_filter|].
    eapply sorted_by_rating_sublist; [apply sublist_filter|done].
Qed.

(** The scenario of the specification: tag counts 1, 2, 1 upstream; the
    single-tag "only" fetch keeps the two single-tag entries, by rating. *)
Lemma C6_only_sorted_subsequence_witness :
  let w := sample.serving 200
             (sample.document (sample.listing "OK" sample.catalog)) in
  let kept := [sample.problem "A" "Knapsack" 1200 ["dp"];
               sample.problem "C" "Coins" 1600 ["dp"]] in
  (@fetchCodeforcesProblemSetWithTagOnly sample.json "dp" w).1 = Ok kept
  ∧ ∃ allProblems,
      @fetchCodeforcesProblemSetWithTag sample.json "dp" w
      = (Ok allProblems, visited (problemsetURL "dp") w)
      ∧ sorted_by_rating allProblems
      ∧ kept `sublist_of` allProblems
      ∧ sorted_by_rating kept.
Proof.
  intros w kept. split; [vm_compute; reflexivity|].
  apply (proj1 (@C6_only_sorted_subsequence sample.json w
                  (visited (problemsetURL "dp") w) kept) "dp").
  vm_compute. reflexivity.
Defined.

(** C10: every problem a fetch returns is one of the problems of the
    decoded upstream list, with all its fields as decoded (the returned
    list is a rearrangement of the decoded one, or of a part of it). *)
Theorem C10_problems_unchanged `{Json} (w w' : World) (ps : list Problem) :
  (∀ tag,
     fetchCodeforcesProblemSetWithTag tag w = (Ok ps, w') →
     ∃ c, answers w (problemsetURL tag) c
          ∧ ps ≡ₚ Problems (Result c)
          ∧ ∀ p, p ∈ ps → p ∈ Problems (Result c))
  ∧ (∀ tags,
       fetchCodeforcesProblemSetWithTags tags w = (Ok ps, w') →
       ∃ c, answers w (problemsetURL (strings.Join tags ";")) c
            ∧ ps ≡ₚ Problems (Result c)
            ∧ ∀ p, p ∈ ps → p ∈ Problems (Result c))
  ∧ (∀ tag,
       fetchCodeforcesProblemSetWithTagOnly tag w = (Ok ps, w') →
       ∃ c, answers w (problemsetURL tag) c
            ∧ ps ≡ₚ filter (has_tag_count 1) (Problems (Result c))
            ∧ ∀ p, p ∈ ps → p ∈ Problems (Result c))
  ∧ (∀ tags,
       fetchCodeforcesProblemSetWithTagsOnly tags w = (Ok ps, w') →
       ∃ c, answers w (problemsetURL (strings.Join tags ";")) c
            ∧ ps ≡ₚ filter (has_tag_count (length tags))
                      (Problems (Result c))
            ∧ ∀ p, p ∈ ps → p ∈ Problems (Result c)).
Proof.
  repeat split.
  - intros tag (c & Hc & -> & _)%fetchWithTag_Ok. exists c.
    repeat split; [done|apply sorted_problems_Permutation|].
    intros p. by rewrite sorted_problems_Permutation.
  - intros tags (c & Hc & -> & _)%fetchWithTags_Ok. exists c.
    repeat split; [done|apply sorted_problems_Permutation|].
    intros p. by rewrite sorted_problems_Permutation.
  - intros tag (allProblems & Hall & ->)%fetchWithTagOnly_Ok.
    apply fetchWithTag_Ok in Hall as (c & Hc & -> & _). exists c.
    repeat split; [done|by rewrite sorted_problems_Permutation|].
    intros p [_ Hp]%list_elem_of_filter.
    by rewrite sorted_problems_Permutation in Hp.
  - intros tags (allProblems & Hall & ->)%fetchWithTagsOnly_Ok.
    apply fetchWithTags_Ok in Hall as (c & Hc & -> & _). exists c.
    repeat split; [done|by rewrite sorted_problems_Permutation|].
    intros p [_ Hp]%list_elem_of_filter.
    by rewrite sorted_problems_Permutation in Hp.
Qed.

(** The problem tagged "dp" and "graphs" comes back from the multi-tag
    "only" fetch as upstream listed it. *)
Lemma C10_problems_unchanged_witness :
  let w := sample.serving 200
             (sample.document (sample.listing "OK" sample.catalog)) in
  (@fetchCodeforcesProblemSetWithTagsOnly sample.json ["dp"; "graphs"] w).1
  = Ok [sample.problem "B" "Paths" 900 ["dp"; "graphs"]]
  ∧ ∃ c, @answers sample.json w (problemsetURL "dp;graphs") c
         ∧ sample.problem "B" "Paths" 900 ["dp"; "graphs"]
           ∈ Problems (Result c).
Proof.
  intros w. split; [vm_compute; reflexivity|].
  pose proof (@C10_problems_unchanged sample.json w
                (visited (problemsetURL "dp;graphs") w)
                [sample.problem "B" "Paths" 900 ["dp"; "graphs"]])
    as (_ & _ & _ & Honly).
  destruct (Honly ["dp"; "graphs"] ltac:(vm_compute; reflexivity))
    as (c & Hc & _ & Hin).
  exists c. split; [done|]. apply Hin. left.
Defined.

(** C4, as the specification states it, fails: [sort.Slice] is not a
    stable sort. Upstream lists twelve problems of rating 1200, A to L,
    and then M of rating 800; the fetch returns M, G, C, D, E, F, A, H, I,
    J, K, L, B: the problems of rating 1200 have left their upstream
    order. *)
Lemma C4_stable_ties_counterexample :
  ¬ (∀ (J : Json) (w w' : World) (tag : string) (ps : list Problem)
       (c : CodeforcesResponse),
       fetchCodeforcesProblemSetWithTag tag w = (Ok ps, w') →
       answers w (problemsetURL tag) c →
       ties_in_upstream_order (Problems (Result c)) ps).
Proof.
  intros Hclaim.
  set (w := sample.serving 200
              (sample.document (sample.listing "OK" sample.thirteen))).
  specialize (Hclaim sample.json w (visited (problemsetURL "dp") w) "dp"
                (sort.Slice lessRating sample.thirteen)
                (sample.listing "OK" sample.thirteen)).
  assert (Hties : ties_in_upstream_order sample.thirteen
                    (sort.Slice lessRating sample.thirteen)).
  { apply Hclaim.
    - vm_compute. reflexivity.
    - eexists _, _. repeat split; vm_compute; reflexivity. }
  specialize (Hties 1200%Z).
  apply (f_equal (fmap Index)) in Hties.
  vm_compute in Hties. discriminate Hties.
Qed.

(** What the fetch returns on that list. *)
Example thirteen_sorted :
  Index <$> sort.Slice lessRating sample.thirteen
  = ["M"; "G"; "C"; "D"; "E"; "F"; "A"; "H"; "I"; "J"; "K"; "L"; "B"].
Proof. vm_compute. reflexivity. Qed.

(** C4, amended: the sort keeps, for every rating, the problems of that
    rating (each as often as upstream lists it), and returns them sorted
    by rating; the order among problems of equal rating is not promised. *)
Theorem C4_ties_same_problems `{Json} (w w' : World) (ps : list Problem)
    (c : CodeforcesResponse) :
  (∀ tag,
     fetchCodeforcesProblemSetWithTag tag w = (Ok ps, w') →
     answers w (problemsetURL tag) c →
     sorted_by_rating ps
     ∧ ∀ r, rated r ps ≡ₚ rated r (Problems (Result c)))
  ∧ (∀ tags,
       fetchCodeforcesProblemSetWithTags tags w = (Ok ps, w') →
       answers w (problemsetURL (strings.Join tags ";")) c →
       sorted_by_rating ps
       ∧ ∀ r, rated r ps ≡ₚ rated r (Problems (Result c))).
Proof.
  assert (Hone : ∀ c1 c2 url,
            answers w url c1 → answers w url c2 → c1 = c2).
  { intros c1 c2 url (r1 & b1 & Hr1 & Hb1 & Hc1) (r2 & b2 & Hr2 & Hb2 & Hc2).
    congruence. }
  split.
  - intros tag (c' & Hc' & -> & _)%fetchWithTag_Ok Hc.
    rewrite (Hone c c' _ Hc Hc'). split; [apply sorted_problems_by_rating|].
    intros r. unfold rated. by rewrite sorted_problems_Permutation.
  - intros tags (c' & Hc' & -> & _)%fetchWithTags_Ok Hc.
    rewrite (Hone c c' _ Hc Hc'). split; [apply sorted_problems_by_rating|].
    intros r. unfold rated. by rewrite sorted_problems_Permutation.
Qed.

(** On the thirteen problems: rating 800 first, and the twelve problems
    of rating 1200 all there. *)
Lemma C4_ties_same_problems_witness :
  let w := sample.serving 200
             (sample.document (sample.listing "OK" sample.thirteen)) in
  let ps := sort.Slice lessRating sample.thirteen in
  sorted_by_rating ps ∧ rated 1200 ps ≡ₚ rated 1200 sample.thirteen.
Proof.
  intros w ps.
  pose proof (@C4_ties_same_problems sample.json w
                (visited (problemsetURL "dp") w) ps
                (sample.listing "OK" sample.thirteen)) as [Htag _].
  destruct (Htag "dp") as [Hsorted Hrated].
  - vm_compute. reflexivity.
  - eexists _, _. repeat split; vm_compute; reflexivity.
  - split; [done|apply Hrated].
Defined.

(** * Further properties of the program *)

(** ** Splitting and joining the tags *)

Section tags.

Lemma substring_full (s : string) :
  String.substring 0 (String.length s) s = s.
Proof. induction s as [|c s IH]; [done|]. simpl. by rewrite IH. Qed.

(** Where [strings.Index] finds the first [c] of a text. *)
Lemma index_char (c b : Ascii.ascii) (s : string) :
  String.index 0 (String c "") (String b s)
  = if Ascii.eqb b c then Some 0
    else S <$> String.index 0 (String c "") s.
Proof.
  simpl. destruct (Ascii.ascii_dec c b) as [->|Hne].
  - rewrite Ascii.eqb_refl. by destruct s.
  - destruct (Ascii.eqb_spec b c) as [->|_]; [done|].
    by destruct (String.index 0 (String c "") s).
Qed.

Lemma length_append (s t : string) :
  String.length (s +:+ t) = String.length s + String.length t.
Proof.
  induction s as [|c s IH]; [done|]. rewrite append_String. simpl. by rewrite IH.
Qed.

Lemma replace_char_append (old new : Ascii.ascii) (s t : string) :
  replace_char old new (s +:+ t)
  = replace_char old new s +:+ replace_char old new t.
Proof.
  induction s as [|c s IH]; [done|].
  rewrite append_String. simpl. by rewrite IH, append_String.
Qed.

Lemma count_char_append (c : Ascii.ascii) (s t : string) :
  count_char c (s +:+ t) = count_char c s + count_char c t.
Proof.
  induction s as [|b s IH]; [done|].
  rewrite append_String. simpl. rewrite IH. lia.
Qed.

Lemma replace_char_absent (old new : Ascii.ascii) (s : string) :
  count_char old s = 0 → replace_char old new s = s.
Proof.
  induction s as [|b s IH]; [done|]. simpl.
  destruct (Ascii.eqb b old); [done|]. intros Hs. by rewrite IH.
Qed.

(** The first cut of [genSplit]: either [c] is nowhere in the text, or the
    text is a piece without [c], then [c], then the rest. *)
Lemma index_char_cut (c : Ascii.ascii) (s : string) :
  match String.index 0 (String c "") s with
  | None => count_char c s = 0
  | Some m =>
      ∃ pre post,
        s = pre +:+ String c post
        ∧ count_char c pre = 0
        ∧ String.substring 0 m s = pre
        ∧ String.substring (m + 1) (String.length s - (m + 1)) s = post
  end.
Proof.
  induction s as [|b s IH]; [done|].
  rewrite index_char. simpl count_char.
  destruct (Ascii.eqb_spec b c) as [->|Hne].
  - exists "", s. repeat split. simpl. rewrite Nat.sub_0_r.
    apply substring_full.
  - simpl. destruct (String.index 0 (String c "") s) as [m|]; simpl; [|done].
    destruct IH as (pre & post & -> & Hpre & Hsub & Hrest).
    exists (String b pre), post. repeat split.
    + simpl. destruct (Ascii.eqb_spec b c); [done|]. done.
    + by rewrite Hsub.
    + done.
Qed.

(** [strings.Split] on a one-character separator, seen through what the
    program does with the pieces: it joins them, or it counts them. *)
Lemma Split_char (c new : Ascii.ascii) (fuel : nat) (s : string) :
  String.length s ≤ fuel →
  String.concat (String new "") (strings.genSplit_loop fuel s (String c ""))
  = replace_char c new s
  ∧ length (strings.genSplit_loop fuel s (String c ""))
    = S (count_char c s).
Proof.
  revert s. induction fuel as [|fuel IH]; intros s Hfuel.
  - destruct s; [done|]. simpl in Hfuel. lia.
  - simpl. pose proof (index_char_cut c s) as Hcut.
    destruct (String.index 0 (String c "") s) as [m|].
    + destruct Hcut as (pre & post & Hs & Hpre & Hsub & Hrest).
      rewrite Hsub, Hrest. clear Hsub Hrest. subst s.
      assert (Hpost : String.length post ≤ fuel).
      { rewrite length_append in Hfuel. simpl in Hfuel. lia. }
      destruct (IH post Hpost) as [Hjoin Hcount].
      rewrite replace_char_append, count_char_append, Hpre.
      rewrite (replace_char_absent _ _ _ Hpre). simpl replace_char.
      rewrite Ascii.eqb_refl. simpl count_char. rewrite Ascii.eqb_refl.
      rewrite <- Hjoin. simpl length. rewrite Hcount. split; [|done].
      destruct (strings.genSplit_loop fuel post (String c "")); [done|].
      done.
    + simpl. by rewrite (replace_char_absent _ _ _ Hcut), Hcut.
Qed.

(** Split on commas and joined with semicolons, the tags parameter has its
    commas turned into semicolons. *)
Lemma Join_Split (s : string) :
  strings.Join (strings.Split s ",") ";" = replace_char comma semicolon s.
Proof.
  rewrite Join_concat.
  apply (Split_char comma semicolon (String.length s) s). done.
Qed.

(** One tag more than the parameter has commas. *)
Lemma Split_length (s : string) :
  length (strings.Split s ",") = S (count_char comma s).
Proof. apply (Split_char comma semicolon (String.length s) s). done. Qed.

End tags.

(** ** When the sort keeps the upstream order *)

Module sort_order.
Import sort sort_spec.

Section keyed.
Context {A : Type} (key : A → Z).
Variable Less : list A → nat → nat → bool.
Hypothesis Less_key : ∀ data i j x y,
  data !! i = Some x → data !! j = Some y →
  Less data i j = (key x <? key y)%Z.

Lemma Swap_adjacent (l1 l2 : list A) (x y : A) :
  Swap (S (length l1)) (length l1) (l1 ++ x :: y :: l2)
  = l1 ++ y :: x :: l2.
Proof.
  unfold Swap.
  rewrite (lookup_app_r l1) by lia.
  replace (S (length l1) - length l1) with 1 by lia.
  rewrite (list_lookup_middle l1 (y :: l2) x (length l1)) by done.
  simpl.
  rewrite (insert_app_r_alt l1) by lia.
  replace (S (length l1) - length l1) with 1 by lia. simpl.
  rewrite (insert_app_r_alt l1) by lia.
  by rewrite Nat.sub_diag.
Qed.

(** A swap of two neighbours of different keys moves no element past one
    of its own key. *)
Lemma keyed_Swap_adjacent (r : Z) (data : list A) (j : nat) :
  S j < length data → Less data (S j) j = true →
  sort_ties.keyed key r (Swap (S j) j data) = sort_ties.keyed key r data.
Proof.
  intros Hj Hless.
  destruct (lookup_lt_is_Some_2 data j ltac:(lia)) as [x Hx].
  destruct (lookup_lt_is_Some_2 data (S j) Hj) as [y Hy].
  rewrite (Less_key _ _ _ _ _ Hy Hx) in Hless. apply Z.ltb_lt in Hless.
  assert (Hdata : data = take j data ++ x :: y :: drop (S (S j)) data).
  { rewrite <- (drop_S _ _ _ Hy). by rewrite (take_drop_middle _ _ _ Hx). }
  assert (Hlen : length (take j data) = j) by (rewrite length_take; lia).
  set (l1 := take j data) in *. set (l2 := drop (S (S j)) data) in *.
  clearbody l1 l2. clear Hx Hy Hj. subst data j. rewrite Swap_adjacent.
  unfold sort_ties.keyed. rewrite !filter_app, !filter_cons.
  repeat case_decide; try done; lia.
Qed.

Lemma insertionSort_inner_length (data : list A) (a j : nat) :
  length (insertionSort_inner Less data a j) = length data.
Proof.
  revert data. induction j as [|j IH]; intros data; [done|]. simpl.
  destruct ((a <? S j) && Less data (S j) j); [|done].
  by rewrite IH, sort_facts.Swap_length.
Qed.

Lemma insertionSort_inner_keyed (r : Z) (data : list A) (a j : nat) :
  j < length data →
  sort_ties.keyed key r (insertionSort_inner Less data a j) = sort_ties.keyed key r data.
Proof.
  revert data. induction j as [|j IH]; intros data Hj; [done|]. simpl.
  destruct (a <? S j); simpl; [|done].
  destruct (Less data (S j) j) eqn:Hless; [|done].
  rewrite IH by (rewrite sort_facts.Swap_length; lia).
  by apply keyed_Swap_adjacent.
Qed.

(** Insertion sort is stable. *)
Lemma insertionSort_func_keyed (r : Z) (data : list A) (a b : nat) :
  b ≤ length data →
  sort_ties.keyed key r (insertionSort_func Less data a b) = sort_ties.keyed key r data.
Proof.
  intros Hb. unfold insertionSort_func.
  assert (Hall : Forall (λ i, i < length data) (seq (a + 1) (b - (a + 1)))).
  { apply Forall_forall. intros i Hi%elem_of_seq. lia. }
  revert data Hb Hall.
  induction (seq (a + 1) (b - (a + 1))) as [|i l IH]; intros data Hb Hall;
    [done|].
  inversion Hall as [|? ? Hi Hl]; subst. simpl.
  rewrite IH.
  - by apply insertionSort_inner_keyed.
  - by rewrite insertionSort_inner_length.
  - by rewrite insertionSort_inner_length.
Qed.

(** Up to twelve elements, [sort.Slice] is an insertion sort. *)
Lemma Slice_short (x : list A) :
  length x ≤ maxInsertion →
  Slice Less x = insertionSort_func Less x 0 (length x).
Proof.
  intros Hx. unfold Slice. cbn [pdqsort_func].
  rewrite Nat.sub_0_r. by destruct (Nat.leb_spec (length x) maxInsertion); [|lia].
Qed.

Lemma Slice_short_keyed (r : Z) (x : list A) :
  length x ≤ maxInsertion → sort_ties.keyed key r (Slice Less x) = sort_ties.keyed key r x.
Proof.
  intros Hx. rewrite Slice_short by done. by apply insertionSort_func_keyed.
Qed.

(** On a range in order, nothing is less than what stands before it. *)
Lemma Less_ordered (data : list A) (a b i j : nat) :
  ordered key data a b → b ≤ length data → a ≤ i → i ≤ j → j < b →
  Less data j i = false.
Proof.
  intros Hord Hb Hi Hij Hj.
  rewrite (sort_facts.Less_K key Less Less_key) by lia.
  apply Z.ltb_ge. by apply Hord.
Qed.

Lemma insertionSort_inner_ordered (data : list A) (a b j : nat) :
  ordered key data a b → b ≤ length data → j < b →
  insertionSort_inner Less data a j = data.
Proof.
  intros Hord Hb Hj. destruct j as [|j]; [done|]. simpl.
  destruct (Nat.ltb_spec a (S j)); simpl; [|done].
  by rewrite (Less_ordered data a b j (S j)) by (done || lia).
Qed.

Lemma insertionSort_func_ordered (data : list A) (a b : nat) :
  ordered key data a b → b ≤ length data →
  insertionSort_func Less data a b = data.
Proof.
  intros Hord Hb. unfold insertionSort_func.
  assert (Hall : Forall (λ i, i < b) (seq (a + 1) (b - (a + 1)))).
  { apply Forall_forall. intros i Hi%elem_of_seq. lia. }
  induction Hall as [|i l Hi Hl IH]; [done|]. simpl.
  by rewrite (insertionSort_inner_ordered data a b i).
Qed.

Lemma order2_func_ordered (data : list A) (a b i j swaps : nat) :
  ordered key data a b → b ≤ length data → a ≤ i → i ≤ j → j < b →
  order2_func Less data i j swaps = (i, j, swaps).
Proof.
  intros Hord Hb Hi Hij Hj. unfold order2_func.
  by rewrite (Less_ordered data a b i j).
Qed.

Lemma median_func_ordered (data : list A) (a b i j k swaps : nat) :
  ordered key data a b → b ≤ length data →
  a ≤ i → i ≤ j → j ≤ k → k < b →
  median_func Less data i j k swaps = (j, swaps).
Proof.
  intros Hord Hb Hi Hij Hjk Hk. unfold median_func.
  rewrite (order2_func_ordered data a b i j) by (done || lia).
  rewrite (order2_func_ordered data a b j k) by (done || lia).
  by rewrite (order2_func_ordered data a b i j) by (done || lia).
Qed.

(** On a range in order [choosePivot_func] counts no swap. *)
Lemma choosePivot_func_ordered (data : list A) (a b : nat) :
  ordered key data a b → b ≤ length data →
  choosePivot_func Less data a b = (a + (b - a) / 4 * 2, increasingHint).
Proof.
  intros Hord Hb. unfold choosePivot_func, medianAdjacent_func.
  pose proof (Nat.div_mod_eq (b - a) 4) as Hdiv.
  pose proof (Nat.mod_upper_bound (b - a) 4 ltac:(lia)) as Hmod.
  set (q := (b - a) / 4) in *. set (m := (b - a) mod 4) in *.
  destruct (Nat.leb_spec 8 (b - a)) as [H8|H8]; [|done].
  destruct (Nat.leb_spec shortestNinther (b - a)) as [H50|H50].
  - unfold shortestNinther in H50.
    rewrite (median_func_ordered data a b) by (done || lia).
    rewrite (median_func_ordered data a b) by (done || lia).
    rewrite (median_func_ordered data a b) by (done || lia).
    by rewrite (median_func_ordered data a b) by (done || lia).
  - by rewrite (median_func_ordered data a b) by (done || lia).
Qed.

Lemma partialInsertionSort_loop_done (steps : nat) (data : list A)
    (a b i : nat) :
  skipOrdered Less (b - i) data i b = b →
  partialInsertionSort_loop Less (S steps) data a b i = (data, true).
Proof. intros Hskip. simpl. by rewrite Hskip, Nat.eqb_refl. Qed.

Lemma partialInsertionSort_func_ordered (data : list A) (a b : nat) :
  ordered key data a b → b ≤ length data → a < b →
  partialInsertionSort_func Less data a b = (data, true).
Proof.
  intros Hord Hb Hab. unfold partialInsertionSort_func, maxSteps.
  apply partialInsertionSort_loop_done.
  destruct (sort_facts.skipOrdered_spec key Less Less_key
              (b - (a + 1)) data a (a + 1) b)
    as (Hrange & _ & Hstop); [lia|lia|done|lia| |].
  { apply sort_facts.ordered_short. lia. }
  set (i := skipOrdered Less (b - (a + 1)) data (a + 1) b) in *.
  destruct (decide (i = b)) as [|Hne]; [done|].
  assert (Hi : i < b) by lia. specialize (Hstop Hi).
  pose proof (Hord (i - 1) i ltac:(lia) ltac:(lia) Hi). lia.
Qed.

(** A slice in order comes back from [sort.Slice] as it went in. *)
Lemma Slice_ordered (x : list A) :
  ordered key x 0 (length x) → Slice Less x = x.
Proof.
  intros Hord. unfold Slice. cbn [pdqsort_func]. rewrite Nat.sub_0_r.
  destruct (Nat.leb_spec (length x) maxInsertion) as [Hshort|Hlong].
  - by apply insertionSort_func_ordered.
  - unfold maxInsertion in Hlong.
    assert (Hlimit : (bits_Len (length x) =? 0) = false).
    { destruct (length x); [lia|done]. }
    rewrite Hlimit. cbn [negb].
    rewrite choosePivot_func_ordered by done.
    rewrite decide_False by done. cbn [andb].
    rewrite bool_decide_eq_true_2 by done.
    by rewrite partialInsertionSort_func_ordered by (done || lia).
Qed.

End keyed.
End sort_order.

(** ** The handlers, from the request to the response *)

Section handlers.
Context `{Json}.

(** A handler leaves the world as its fetch leaves it. *)
Lemma problemsByTagHandler_world rw r w :
  (problemsByTagHandler rw r w).2
  = (fetchCodeforcesProblemSetWithTag
       (http.Values_Get (http.Query r) "tag") w).2.
Proof.
  unfold problemsByTagHandler. run_io.
  destruct (fetchCodeforcesProblemSetWithTag _ w) as [[ps|err] w1];
    [destruct (Encoder_Encode rw ps) as [? [?|]]|]; done.
Qed.

Lemma problemsByTagOnlyHandler_world rw r w :
  (problemsByTagOnlyHandler rw r w).2
  = (fetchCodeforcesProblemSetWithTagOnly
       (http.Values_Get (http.Query r) "tag") w).2.
Proof.
  unfold problemsByTagOnlyHandler. run_io.
  destruct (fetchCodeforcesProblemSetWithTagOnly _ w) as [[ps|err] w1];
    [destruct (Encoder_Encode rw ps) as [? [?|]]|]; done.
Qed.

Lemma problemsByTagsHandler_world rw r w :
  (problemsByTagsHandler rw r w).2
  = (fetchCodeforcesProblemSetWithTags
       (strings.Split (http.Values_Get (http.Query r) "tags") ",") w).2.
Proof.
  unfold problemsByTagsHandler. run_io.
  destruct (fetchCodeforcesProblemSetWithTags _ w) as [[ps|err] w1];
    [destruct (Encoder_Encode rw ps) as [? [?|]]|]; done.
Qed.

Lemma problemsByTagsOnlyHandler_world rw r w :
  (problemsByTagsOnlyHandler rw r w).2
  = (fetchCodeforcesProblemSetWithTagsOnly
       (strings.Split (http.Values_Get (http.Query r) "tags") ",") w).2.
Proof.
  unfold problemsByTagsOnlyHandler. run_io.
  destruct (fetchCodeforcesProblemSetWithTagsOnly _ w) as [[ps|err] w1];
    [destruct (Encoder_Encode rw ps) as [? [?|]]|]; done.
Qed.

(** Once [Encode] has written, the status line is out: the [WriteHeader]
    that follows it in the handlers changes nothing. *)
Lemma WriteHeader_after_Write rw text code :
  http.WriteHeader (http.Write rw text) code = http.Write rw text.
Proof.
  by destruct rw as [[] code' text'].
Qed.

(** What a handler sends, read off the outcome of its fetch. *)
Lemma reply_of_outcome rw (outcome : result (list Problem)) :
  match outcome with
  | Err err => http.Error rw (Error err) http.StatusInternalServerError
  | Ok problems =>
      match Encoder_Encode rw problems with
      | (rw, Some err) =>
          http.Error rw (Error err) http.StatusInternalServerError
      | (rw, None) => http.WriteHeader rw http.StatusOK
      end
  end
  = match outcome with
    | Err err => http.Error rw (Error err) http.StatusInternalServerError
    | Ok problems =>
        match json_Marshal problems with
        | Err err => http.Error rw (Error err) http.StatusInternalServerError
        | Ok text => http.Write rw (text +:+ newline)
        end
    end.
Proof.
  destruct outcome as [problems|err]; [|done]. unfold Encoder_Encode.
  destruct (json_Marshal problems) as [text|err]; [|done].
  apply WriteHeader_after_Write.
Qed.

Lemma problemsByTagHandler_reply rw r w :
  (problemsByTagHandler rw r w).1
  = match (fetchCodeforcesProblemSetWithTag
             (http.Values_Get (http.Query r) "tag") w).1 with
    | Err err => http.Error rw (Error err) http.StatusInternalServerError
    | Ok problems =>
        match json_Marshal problems with
        | Err err => http.Error rw (Error err) http.StatusInternalServerError
        | Ok text => http.Write rw (text +:+ newline)
        end
    end.
Proof.
  rewrite <- reply_of_outcome. unfold problemsByTagHandler. run_io.
  destruct (fetchCodeforcesProblemSetWithTag _ w) as [[ps|err] w1];
    simpl; [destruct (Encoder_Encode rw ps) as [? [?|]]|]; done.
Qed.

Lemma problemsByTagOnlyHandler_reply rw r w :
  (problemsByTagOnlyHandler rw r w).1
  = match (fetchCodeforcesProblemSetWithTagOnly
             (http.Values_Get (http.Query r) "tag") w).1 with
    | Err err => http.Error rw (Error err) http.StatusInternalServerError
    | Ok problems =>
        match json_Marshal problems with
        | Err err => http.Error rw (Error err) http.StatusInternalServerError
        | Ok text => http.Write rw (text +:+ newline)
        end
    end.
Proof.
  rewrite <- reply_of_outcome. unfold problemsByTagOnlyHandler. run_io.
  destruct (fetchCodeforcesProblemSetWithTagOnly _ w) as [[ps|err] w1];
    simpl; [destruct (Encoder_Encode rw ps) as [? [?|]]|]; done.
Qed.

Lemma problemsByTagsHandler_reply rw r w :
  (problemsByTagsHandler rw r w).1
  = match (fetchCodeforcesProblemSetWithTags
             (strings.Split (http.Values_Get (http.Query r) "tags") ",")
             w).1 with
    | Err err => http.Error rw (Error err) http.StatusInternalServerError
    | Ok problems =>
        match json_Marshal problems with
        | Err err => http.Error rw (Error err) http.StatusInternalServerError
        | Ok text => http.Write rw (text +:+ newline)
        end
    end.
Proof.
  rewrite <- reply_of_outcome. unfold problemsByTagsHandler. run_io.
  destruct (fetchCodeforcesProblemSetWithTags _ w) as [[ps|err] w1];
    simpl; [destruct (Encoder_Encode rw ps) as [? [?|]]|]; done.
Qed.

Lemma problemsByTagsOnlyHandler_reply rw r w :
  (problemsByTagsOnlyHandler rw r w).1
  = match (fetchCodeforcesProblemSetWithTagsOnly
             (strings.Split (http.Values_Get (http.Query r) "tags") ",")
             w).1 with
    | Err err => http.Error rw (Error err) http.StatusInternalServerError
    | Ok problems =>
        match json_Marshal problems with
        | Err err => http.Error rw (Error err) http.StatusInternalServerError
        | Ok text => http.Write rw (text +:+ newline)
        end
    end.
Proof.
  rewrite <- reply_of_outcome. unfold problemsByTagsOnlyHandler. run_io.
  destruct (fetchCodeforcesProblemSetWithTagsOnly _ w) as [[ps|err] w1];
    simpl; [destruct (Encoder_Encode rw ps) as [? [?|]]|]; done.
Qed.

(** The multi-tag fetch of a split parameter is the single-tag fetch of
    the parameter with its commas turned into semicolons. *)
Lemma fetchWithTags_Split (s : string) :
  fetchCodeforcesProblemSetWithTags (strings.Split s ",")
  = fetchCodeforcesProblemSetWithTag (replace_char comma semicolon s).
Proof. by rewrite fetchWithTags_joined, Join_Split. Qed.




End handlers.

(** ** Properties of the handlers and of the server *)

(** X1: the two multi-tag handlers ask upstream for the tags parameter
    with every comma turned into a semicolon: the parameter is split on
    "," and the pieces are joined with ";", nothing else is done to it. *)
Theorem multi_handlers_request_url `{Json} (rw : http.ResponseWriter)
    (r : http.Request) (w : World) :
  let tags := http.Values_Get (http.Query r) "tags" in
  requests (problemsByTagsHandler rw r w).2
  = requests w
    ++ ["https://codeforces.com/api/problemset.problems?tags="
        +:+ replace_char comma semicolon tags]
  ∧ requests (problemsByTagsOnlyHandler rw r w).2
    = requests w
      ++ ["https://codeforces.com/api/problemset.problems?tags="
          +:+ replace_char comma semicolon tags].
Proof.
  intros tags.
  rewrite problemsByTagsHandler_world, problemsByTagsOnlyHandler_world.
  fold tags.
  destruct (fetchWithTagsOnly_world (strings.Split tags ",") w) as [l1 ->].
  rewrite fetchWithTags_Split.
  destruct (fetchWithTag_world (replace_char comma semicolon tags) w)
    as [l2 ->].
  by rewrite Join_Split.
Qed.



(** X3: the multi-tag "only" fetch of a split parameter keeps the problems
    that carry one tag more than the parameter has commas. The count is
    never zero: a problem without tags is never returned, and an empty
    parameter keeps the problems with one tag. *)
Theorem multi_only_tag_count `{Json} (s : string) (w w' : World)
    (ps : list Problem) :
  fetchCodeforcesProblemSetWithTagsOnly (strings.Split s ",") w
  = (Ok ps, w') →
  ∃ allProblems,
    fetchCodeforcesProblemSetWithTags (strings.Split s ",") w
    = (Ok allProblems, w')
    ∧ ps = filter (λ p, length (Tags p) = S (count_char comma s)) allProblems
    ∧ Forall (λ p, Tags p ≠ []) ps.
Proof.
  intros (allProblems & Hall & ->)%fetchWithTagsOnly_Ok.
  exists allProblems. rewrite Split_length. repeat split; [done|].
  apply Forall_forall. intros p [Hp _]%list_elem_of_filter.
  unfold has_tag_count in Hp. by destruct (Tags p).
Qed.

(** The parameter "math,trees" has one comma: of the catalog, the problem
    with two tags is kept. *)
Lemma multi_only_tag_count_witness :
  let w := sample.serving 200
             (sample.document (sample.listing "OK" sample.catalog)) in
  ∃ allProblems,
    @fetchCodeforcesProblemSetWithTags sample.json
      (strings.Split "math,trees" ",") w
    = (Ok allProblems, visited (problemsetURL "math;trees") w)
    ∧ [sample.problem "B" "Paths" 900 ["dp"; "graphs"]]
      = filter (λ p, length (Tags p) = S (count_char comma "math,trees"))
          allProblems
    ∧ Forall (λ p, Tags p ≠ [])
        [sample.problem "B" "Paths" 900 ["dp"; "graphs"]].
Proof.
  intros w.
  apply (@multi_only_tag_count sample.json "math,trees" w
           (visited (problemsetURL "math;trees") w)).
  vm_compute. reflexivity.
Defined.


(** X5: when upstream answers with a body that does not decode, each of
    the four handlers answers 500 with the decoder's error text as a
    line, whatever the status code of the upstream answer. *)
Theorem undecodable_body_answers_500 `{Json} (r : http.Request) (w : World)
    (response : Response) (text : string) (err : error) :
  let tag := http.Values_Get (http.Query r) "tag" in
  let tags :=
    replace_char comma semicolon (http.Values_Get (http.Query r) "tags") in
  Body response = Ok text →
  json_Unmarshal text = Err err →
  (upstream w (problemsetURL tag) = Ok response →
   (problemsByTagHandler http.newResponseWriter r w).1
   = sent 500 (Error err +:+ newline)
   ∧ (problemsByTagOnlyHandler http.newResponseWriter r w).1
     = sent 500 (Error err +:+ newline))
  ∧ (upstream w (problemsetURL tags) = Ok response →
     (problemsByTagsHandler http.newResponseWriter r w).1
     = sent 500 (Error err +:+ newline)
     ∧ (problemsByTagsOnlyHandler http.newResponseWriter r w).1
       = sent 500 (Error err +:+ newline)).
Proof.
  intros tag tags Hbody Hjson. split; intros Hget; split.
  - rewrite problemsByTagHandler_reply. fold tag.
    by rewrite fetchWithTag_outcome, Hget, Hbody, Hjson.
  - rewrite problemsByTagOnlyHandler_reply. fold tag.
    by rewrite fetchWithTagOnly_outcome, fetchWithTag_outcome,
      Hget, Hbody, Hjson.
  - rewrite problemsByTagsHandler_reply, fetchWithTags_Split. fold tags.
    by rewrite fetchWithTag_outcome, Hget, Hbody, Hjson.
  - rewrite problemsByTagsOnlyHandler_reply, fetchWithTagsOnly_outcome,
      fetchWithTags_Split. fold tags.
    by rewrite fetchWithTag_outcome, Hget, Hbody, Hjson.
Qed.

(** Upstream answers 200 with a page that is no JSON. *)
Lemma undecodable_body_answers_500_witness :
  (@problemsByTagsOnlyHandler sample.json http.newResponseWriter
     (sample.request "/problems/multi/only" [("tags", ["dp,graphs"])])
     (sample.serving 200 "overloaded")).1
  = sent 500
      ("invalid character 'o' looking for beginning of value" +:+ newline).
Proof.
  pose proof (@undecodable_body_answers_500 sample.json
                (sample.request "/problems/multi/only"
                   [("tags", ["dp,graphs"])])
                (sample.serving 200 "overloaded")
                {| StatusCode := 200; Body := Ok "overloaded" |}
                "overloaded"
                (mkError "invalid character 'o' looking for beginning of value")
                eq_refl ltac:(vm_compute; reflexivity)) as [_ Htags].
  apply Htags. reflexivity.
Defined.



(** X7: a problem handler answers every request with status 200 or with
    status 500, and with a body that ends a line; no request, whatever its
    parameters, is answered with another status. *)
Theorem handlers_answer_200_or_500 `{Json} (r : http.Request) (w : World) :
  Forall
    (λ handler : Handler,
       ∃ text,
         (handler http.newResponseWriter r w).1 = sent 200 (text +:+ newline)
         ∨ (handler http.newResponseWriter r w).1
           = sent 500 (text +:+ newline))
    [problemsByTagHandler; problemsByTagsHandler;
     problemsByTagOnlyHandler; problemsByTagsOnlyHandler].
Proof.
  repeat constructor.
  - rewrite problemsByTagHandler_reply.
    destruct (fetchCodeforcesProblemSetWithTag _ w).1 as [ps|err];
      [destruct (json_Marshal ps) as [text|err]|];
      eexists; ((by left) || (by right)).
  - rewrite problemsByTagsHandler_reply.
    destruct (fetchCodeforcesProblemSetWithTags _ w).1 as [ps|err];
      [destruct (json_Marshal ps) as [text|err]|];
      eexists; ((by left) || (by right)).
  - rewrite problemsByTagOnlyHandler_reply.
    destruct (fetchCodeforcesProblemSetWithTagOnly _ w).1 as [ps|err];
      [destruct (json_Marshal ps) as [text|err]|];
      eexists; ((by left) || (by right)).
  - rewrite problemsByTagsOnlyHandler_reply.
    destruct (fetchCodeforcesProblemSetWithTagsOnly _ w).1 as [ps|err];
      [destruct (json_Marshal ps) as [text|err]|];
      eexists; ((by left) || (by right)).
Qed.

(** X8: the logging middleware passes the response of the handler it
    wraps through unchanged and reads the clock twice. After whatever the
    handler did to the world it adds one line to the log, the last one:
    method, path and the time between the two readings; it does so
    whatever the handler answered. *)
Theorem loggingMiddleware_logs_last `{Duration} (next : Handler)
    (rw : http.ResponseWriter) (r : http.Request) (c : time.Clock)
    (w : World) :
  let served := next rw r w in
  let logging := loggingMiddleware next rw r c w in
  let elapsed :=
    time.Sub (time.readings c (S (time.reads c)))
             (time.readings c (time.reads c)) in
  logging.1.1 = served.1
  ∧ time.reads logging.1.2 = S (S (time.reads c))
  ∧ upstream logging.2 = upstream served.2
  ∧ requests logging.2 = requests served.2
  ∧ logged logging.2
    = logged served.2
      ++ [http.Method r +:+ " " +:+ http.Path r +:+ " "
          +:+ Duration_String elapsed].
Proof.
  intros served logging elapsed. subst served logging elapsed.
  unfold loggingMiddleware, time.Since, time.Now. run_io.
  by destruct (next rw r w) as [rw' w'].
Qed.

(** X9: [shutdownGracefully] first logs that the server is shutting
    down, then shuts it down; its last log line is always "server shutdown
    gracefully", also when the shutdown has failed, the failure being
    logged just before it. *)
Theorem shutdownGracefully_log (server : Server) (w : World) :
  let announced := (log_Println "shutting down server..." w).2 in
  let stopped := Shutdown server announced in
  logged announced = logged w ++ ["shutting down server..."]
  ∧ logged (shutdownGracefully server w).2
    = logged stopped.2
      ++ match stopped.1 with
         | Some err => ["graceful shutdown failed, err=" +:+ Error err]
         | None => []
         end
      ++ ["server shutdown gracefully"]
  ∧ last (logged (shutdownGracefully server w).2)
    = Some "server shutdown gracefully".
Proof.
  intros announced stopped. subst announced stopped.
  unfold shutdownGracefully, log_Println. run_io.
  destruct (Shutdown server _) as [[err|] w1]; simpl.
  - repeat split; [by rewrite <- app_assoc|].
    by rewrite last_snoc.
  - repeat split. by rewrite last_snoc.
Qed.

(** ** Properties of the sort stage *)

Section sort_stage.

Lemma sorted_by_rating_ordered (ps : list Problem) :
  sorted_by_rating ps → sort_spec.ordered Rating ps 0 (length ps).
Proof.
  intros Hsorted i j _ Hij Hj.
  destruct (decide (i = j)) as [->|Hne]; [done|].
  destruct (lookup_lt_is_Some_2 ps i ltac:(lia)) as [p Hp].
  destruct (lookup_lt_is_Some_2 ps j Hj) as [q Hq].
  unfold sort_spec.K. rewrite Hp, Hq. simpl.
  apply (Hsorted i j p q); [lia|done..].
Qed.

Lemma sorted_problems_unchanged (ps : list Problem) :
  sorted_by_rating ps → sort.Slice lessRating ps = ps.
Proof.
  intros Hsorted.
  apply (sort_order.Slice_ordered Rating), sorted_by_rating_ordered, Hsorted.
  apply lessRating_key.
Qed.

Lemma short_problems_ties (ps : list Problem) :
  length ps ≤ 12 →
  ties_in_upstream_order ps (sort.Slice lessRating ps).
Proof.
  intros Hshort r.
  apply (sort_order.Slice_short_keyed Rating lessRating lessRating_key r ps).
  done.
Qed.

Lemma answers_once `{Json} (w : World) (url : string)
    (c1 c2 : CodeforcesResponse) :
  answers w url c1 → answers w url c2 → c1 = c2.
Proof.
  intros (r1 & b1 & Hr1 & Hb1 & Hc1) (r2 & b2 & Hr2 & Hb2 & Hc2). congruence.
Qed.

End sort_stage.

(** X10: when upstream lists at most twelve problems, the sort stage is
    stable: problems of equal rating come back in the order upstream
    lists them (such a list is sorted by insertion). *)
Theorem short_lists_keep_upstream_ties `{Json} (w w' : World)
    (ps : list Problem) (c : CodeforcesResponse) :
  length (Problems (Result c)) ≤ 12 →
  (∀ tag,
     fetchCodeforcesProblemSetWithTag tag w = (Ok ps, w') →
     answers w (problemsetURL tag) c →
     ties_in_upstream_order (Problems (Result c)) ps)
  ∧ (∀ tags,
       fetchCodeforcesProblemSetWithTags tags w = (Ok ps, w') →
       answers w (problemsetURL (strings.Join tags ";")) c →
       ties_in_upstream_order (Problems (Result c)) ps).
Proof.
  intros Hshort. split.
  - intros tag (c' & Hc' & -> & _)%fetchWithTag_Ok Hc.
    rewrite (answers_once _ _ _ _ Hc Hc') in *.
    by apply short_problems_ties.
  - intros tags (c' & Hc' & -> & _)%fetchWithTags_Ok Hc.
    rewrite (answers_once _ _ _ _ Hc Hc') in *.
    by apply short_problems_ties.
Qed.

(** Upstream lists B (900), then D and A (both 1200), then C (1600),
    out of order: D stays before A. *)
Lemma short_lists_keep_upstream_ties_witness :
  let upstream_list :=
    [sample.problem "C" "Coins" 1600 ["dp"];
     sample.problem "D" "Stairs" 1200 ["dp"];
     sample.problem "B" "Paths" 900 ["dp"; "graphs"];
     sample.problem "A" "Knapsack" 1200 ["dp"]] in
  let J : Json :=
    {| json_Unmarshal _ := Ok (sample.listing "OK" upstream_list);
       json_Marshal := @json_Marshal sample.json |} in
  rated 1200 (sort.Slice lessRating upstream_list)
  = [sample.problem "D" "Stairs" 1200 ["dp"];
     sample.problem "A" "Knapsack" 1200 ["dp"]].
Proof.
  intros upstream_list J.
  pose proof (@short_lists_keep_upstream_ties J
                (sample.serving 200 "{}")
                (visited (problemsetURL "dp") (sample.serving 200 "{}"))
                (sort.Slice lessRating upstream_list)
                (sample.listing "OK" upstream_list)
                ltac:(simpl; lia)) as [Htag _].
  rewrite (Htag "dp").
  - reflexivity.
  - vm_compute. reflexivity.
  - eexists _, _. repeat split; reflexivity.
Defined.

(** X11: when upstream already lists its problems in the order of their
    ratings, the fetch returns the list exactly as upstream sent it, ties
    included, and the "only" fetch returns its filtered part. *)
Theorem sorted_upstream_is_returned_as_is `{Json} (w : World)
    (c : CodeforcesResponse) :
  sorted_by_rating (Problems (Result c)) →
  (∀ tag,
     answers w (problemsetURL tag) c →
     (fetchCodeforcesProblemSetWithTag tag w).1 = Ok (Problems (Result c))
     ∧ (fetchCodeforcesProblemSetWithTagOnly tag w).1
       = Ok (filter (λ p, length (Tags p) = 1) (Problems (Result c))))
  ∧ (∀ tags,
       answers w (problemsetURL (strings.Join tags ";")) c →
       (fetchCodeforcesProblemSetWithTags tags w).1
       = Ok (Problems (Result c))
       ∧ (fetchCodeforcesProblemSetWithTagsOnly tags w).1
         = Ok (filter (λ p, length (Tags p) = length tags)
                 (Problems (Result c)))).
Proof.
  intros Hsorted.
  assert (Hfetch : ∀ t,
    answers w (problemsetURL t) c →
    (fetchCodeforcesProblemSetWithTag t w).1 = Ok (Problems (Result c))).
  { intros t (response & body & Hget & Hbody & Hjson).
    rewrite fetchWithTag_outcome, Hget, Hbody, Hjson.
    by rewrite sorted_problems_unchanged. }
  split.
  - intros tag Hc%Hfetch. split; [done|].
    by rewrite fetchWithTagOnly_outcome, Hc.
  - intros tags Hc%Hfetch. rewrite fetchWithTags_joined. split; [done|].
    by rewrite fetchWithTagsOnly_outcome, fetchWithTags_joined, Hc.
Qed.

(** Upstream lists B (900), D and A (both 1200), C (1600). *)
Lemma sorted_upstream_is_returned_as_is_witness :
  (@fetchCodeforcesProblemSetWithTag sample_server.json "dp"
     (sample.serving 200
        (sample.document (sample.listing "OK" sample_server.by_rating)))).1
  = Ok sample_server.by_rating.
Proof.
  pose proof (@sorted_upstream_is_returned_as_is sample_server.json
                (sample.serving 200
                   (sample.document
                      (sample.listing "OK" sample_server.by_rating)))
                (sample.listing "OK" sample_server.by_rating)) as Hsame.
  destruct Hsame as [Htag _].
  - simpl. unfold sample_server.by_rating.
    rewrite !sorted_by_rating_cons. repeat split; repeat constructor;
      simpl; try lia.
    intros i j p q _ Hp. by destruct i.
  - apply Htag. eexists _, _. repeat split; vm_compute; reflexivity.
Defined.
